(** * The zorba process module ([process.cpp]): child-process execution

    A shallow embedding of [ExecFunction::evaluate] and of its two
    backends: the POSIX one ([exec_helper], [execvpe], the read loops and
    the decoding of the wait status) and the WIN32 one ([run_process],
    [create_child_process], [read_child_output]).

    Conventions.
    - [std::string] and C strings are [string] (a sequence of bytes);
      [c_str] is what a [char*] reader sees of a [std::string].
    - [size_t] is a 64-bit unsigned integer and [int] a 32-bit signed one,
      both carried by [Z] with the wrap-around written out.
    - The operating system is an explicit parameter (a record of answers to
      the system calls of one invocation); the handles the calling process
      holds are tracked in an explicit state. *)

From Stdlib Require Import ZArith String Ascii List Bool Lia Permutation.
Import ListNotations.
Local Open Scope string_scope.
Local Open Scope Z_scope.

(** ** Machine integers *)

Definition size_t_modulus : Z := 2 ^ 64.
Definition int_modulus : Z := 2 ^ 32.

(** [std::string::npos], that is [(size_t)-1]. *)
Definition npos : Z := size_t_modulus - 1.

(** Addition of two [size_t] values. *)
Definition size_t_add (a b : Z) : Z := (a + b) mod size_t_modulus.

(** The conversion [int(pos)] of a [size_t]: the low 32 bits, read as a
    two's complement number. *)
Definition int_of_size_t (z : Z) : Z :=
  let r := z mod int_modulus in
  if r <? 2 ^ 31 then r else r - int_modulus.

(** ** Strings *)

Definition dquote : string := String "034" EmptyString.
Definition backslash : ascii := "092"%char.
Definition slash : ascii := "/"%char.
Definition NUL : ascii := "000"%char.
Definition newline : string := String "010" EmptyString.

(** [s.c_str()] read as a C string: the bytes before the first NUL. *)
Fixpoint c_str (s : string) : string :=
  match s with
  | EmptyString => EmptyString
  | String a s' => if Ascii.eqb a NUL then EmptyString else String a (c_str s')
  end.

(** [strdup(s.c_str())]: a fresh copy of the C string. *)
Definition strdup (s : string) : string := s.

Fixpoint rfind_from (c : ascii) (s : string) (i : Z) (last : Z) : Z :=
  match s with
  | EmptyString => last
  | String a s' => rfind_from c s' (i + 1) (if Ascii.eqb a c then i else last)
  end.

(** [s.rfind(c)]: the index of the last occurrence of [c], or [npos]. *)
Definition rfind (s : string) (c : ascii) : Z := rfind_from c s 0 npos.

Fixpoint contains (c : ascii) (s : string) : bool :=
  match s with
  | EmptyString => false
  | String a s' => Ascii.eqb a c || contains c s'
  end.

(** The spec's notion: the value contains a forward or a back slash. *)
Definition has_path_separator (s : string) : bool :=
  contains slash s || contains backslash s.

(** ** CommandBuilder: the command line of [ExecFunction::evaluate] *)

(** The test of the loop over [lArgs]:
    [pos = rfind('\\') + rfind('/'); if (int(pos) >= 0)]. *)
Definition quoted (arg : string) : bool :=
  let pos := size_t_add (rfind arg backslash) (rfind arg slash) in
  0 <=? int_of_size_t pos.

Fixpoint append_args (lTmp : string) (lArgs : list string) : string :=
  match lArgs with
  | [] => lTmp
  | lIter :: rest =>
      if quoted lIter
      then append_args (lTmp ++ " " ++ dquote ++ lIter ++ dquote) rest
      else append_args (lTmp ++ " " ++ lIter) rest
  end.

Inductive backend : Type := POSIX | WIN32.

(** The contents of [lTmp] after the loop (and after the WIN32 suffix). *)
Definition command_line (b : backend) (lCommand : string) (lArgs : list string)
  : string :=
  let lTmp := match b with
              | WIN32 => "cmd /C " ++ dquote
              | POSIX => ""
              end in
  let lTmp := lTmp ++ dquote ++ lCommand ++ dquote in
  let lTmp := append_args lTmp lArgs in
  match b with
  | WIN32 => lTmp ++ dquote
  | POSIX => lTmp
  end.

(** What one argument contributes to the line. *)
Definition rendered_arg (arg : string) : string :=
  if quoted arg then " " ++ dquote ++ arg ++ dquote else " " ++ arg.

Definition join (l : list string) : string := fold_right append "" l.

(** The rest of the value after its first character. *)
Definition tail (s : string) : string :=
  match s with
  | EmptyString => EmptyString
  | String _ s' => s'
  end.

(** ** ResultEncoder: the wait status *)

(** The status macros of [<sys/wait.h>].  The header belongs to the
    platform, not to the repository, so the encoder takes the macros as a
    parameter. *)
Record wait_h : Type := {
  WIFEXITED : Z -> bool;
  WEXITSTATUS : Z -> Z;
  WIFSIGNALED : Z -> bool;
  WTERMSIG : Z -> Z;
  WIFSTOPPED : Z -> bool;
  WSTOPSIG : Z -> Z
}.

(** The chain of tests on [stat] at the end of the POSIX branch of
    [ExecFunction::evaluate]. *)
Definition exit_code_of (m : wait_h) (stat : Z) : Z :=
  if WIFEXITED m stat then WEXITSTATUS m stat
  else if WIFSIGNALED m stat then 128 + WTERMSIG m stat
  else if WIFSTOPPED m stat then 128 + WSTOPSIG m stat
  else 255.

(** The spec's data model of a termination status, and the spec's
    normalisation of it (written from the words of the spec, to be compared
    with [exit_code_of]). *)
Inductive TerminationStatus : Type :=
| Exited (code : Z)
| Signaled (signalNumber : Z)
| Stopped (signalNumber : Z)
| Unknown.

Definition encode (status : TerminationStatus) : Z :=
  match status with
  | Exited code => code
  | Signaled signalNumber => 128 + signalNumber
  | Stopped signalNumber => 128 + signalNumber
  | Unknown => 255
  end.

(** How a status word presents a termination status, through the macros. *)
Definition presents (m : wait_h) (stat : Z) (status : TerminationStatus) : Prop :=
  match status with
  | Exited code => WIFEXITED m stat = true /\ WEXITSTATUS m stat = code
  | Signaled s => WIFSIGNALED m stat = true /\ WTERMSIG m stat = s
  | Stopped s => WIFSTOPPED m stat = true /\ WSTOPSIG m stat = s
  | Unknown =>
      WIFEXITED m stat = false /\ WIFSIGNALED m stat = false /\
      WIFSTOPPED m stat = false
  end.

(** POSIX: a status word is of at most one of the three kinds. *)
Definition macros_exclusive (m : wait_h) : Prop :=
  forall stat,
    (WIFEXITED m stat = true -> WIFSIGNALED m stat = false /\ WIFSTOPPED m stat = false) /\
    (WIFSIGNALED m stat = true -> WIFSTOPPED m stat = false).

(** The conversion to [signed char]. *)
Definition signed_char (z : Z) : Z :=
  let r := z mod 256 in if r <? 128 then r else r - 256.

(** The macros as the GNU C library defines them ([bits/waitstatus.h]). *)
Definition glibc : wait_h := {|
  WIFEXITED := fun status => Z.land status 127 =? 0;
  WEXITSTATUS := fun status => Z.shiftr (Z.land status 65280) 8;
  WIFSIGNALED := fun status => 0 <? Z.shiftr (signed_char (Z.land status 127 + 1)) 1;
  WTERMSIG := fun status => Z.land status 127;
  WIFSTOPPED := fun status => Z.land status 255 =? 127;
  WSTOPSIG := fun status => Z.shiftr (Z.land status 65280) 8
|}.

(** The status words the kernel builds: [W_EXITCODE(ret, sig)] (with the
    core-dump flag [0x80]) and [W_STOPCODE(sig)]. *)
Definition W_EXITCODE (ret sig : Z) : Z := Z.lor (Z.shiftl ret 8) sig.
Definition W_STOPCODE (sig : Z) : Z := Z.lor (Z.shiftl sig 8) 127.
Definition WCOREFLAG : Z := 128.
Definition SIGABRT : Z := 6.

(** ** The result record *)

(** The JSON object of [create_result_object]: the three pairs
    ["exit-code"], ["stdout"], ["stderr"]. *)
Record ExecutionResult : Type := {
  exit_code : Z;
  stdout : string;
  stderr : string
}.

Definition create_result_object (aStandardOut aErrorOut : string) (aExitCode : Z)
  : ExecutionResult :=
  {| exit_code := aExitCode; stdout := aStandardOut; stderr := aErrorOut |}.

(** ** Exceptions *)

(** The [USER_EXCEPTION]s of the module, all raised with the QName
    [COMMUNICATION]; one constructor per message. *)
Inductive exec_error : Type :=
| FailedToExecute (code : Z)      (* Failed to execute the command (code) *)
| FailedToCloseErr (status : Z)   (* Failed to close the err stream (status) *)
| FailedToWait                    (* Failed to wait for child process *)
| NoPipe                          (* Couldn't create one of std::cout/std::cerr pipe ... *)
| NoExitCode (aCommand : string)  (* Couldn't get exit code from child process. ... *)
| LastError (aLineNumber code : Z). (* throw_last_error(__FILE__, __LINE__):
                                     Process Error Code: code - Message= ... *)

(** The failure taxonomy of the spec. *)
Inductive failure : Type := SpawnFailure | DrainFailure | WaitFailure.

(** ** A state and exception monad

    The state survives an exception, so that what a failing path leaves
    behind can be inspected. *)
Inductive result (A : Type) : Type :=
| Returned (a : A)
| Thrown (e : exec_error).
Arguments Returned {A} a.
Arguments Thrown {A} e.

Definition M (St A : Type) : Type := St -> result A * St.

Definition ret {St A} (a : A) : M St A := fun st => (Returned a, st).

Definition throw {St A} (e : exec_error) : M St A := fun st => (Thrown e, st).

Definition bind {St A B} (c : M St A) (k : A -> M St B) : M St B :=
  fun st =>
    match c st with
    | (Returned a, st') => k a st'
    | (Thrown e, st') => (Thrown e, st')
    end.

Definition modify {St} (f : St -> St) : M St unit := fun st => (Returned tt, f st).

Definition gets {St A} (f : St -> A) : M St A := fun st => (Returned (f st), st).

Declare Scope exec_scope.
Delimit Scope exec_scope with exec.
Notation "x <- c ;; k" := (bind c (fun x => k))
  (at level 61, c at next level, right associativity) : exec_scope.
Notation "c ;; k" := (bind c (fun _ => k))
  (at level 61, right associativity) : exec_scope.

(** ** Handles held by the calling process *)

Record handles (H : Type) : Type := {
  opened : list H;   (* every handle created, in order of creation *)
  released : list H  (* every release, in order *)
}.
Arguments opened {H} _.
Arguments released {H} _.

Definition no_handles {H} : handles H := {| opened := []; released := [] |}.

Definition acquire {H} (hs : list H) (t : handles H) : handles H :=
  {| opened := (opened t ++ hs)%list; released := released t |}.

Definition release {H} (h : H) (t : handles H) : handles H :=
  {| opened := opened t; released := (released t ++ [h])%list |}.

Section Accounting.
Context {H : Type} (H_eqb : H -> H -> bool).

Definition times_released (t : handles H) (h : H) : nat :=
  List.length (filter (H_eqb h) (released t)).

(** Every handle that was created has been released exactly once. *)
Definition all_released_once (t : handles H) : bool :=
  forallb (fun h => Nat.eqb (times_released t h) 1) (opened t).

(** The handles that were created and never released. *)
Definition leaked (t : handles H) : list H :=
  filter (fun h => Nat.eqb (times_released t h) 0) (opened t).
End Accounting.

(** ** The POSIX backend *)

(** The pipes of [exec_helper] and the two ends of each ([READ] is index 0
    and [WRITE] index 1 of the array [pipe] fills). *)
Inductive pipe_name : Type := p_stdin | p_stdout | p_stderr.
Inductive pipe_end : Type := READ | WRITE.

(** A handle of the calling process: a pipe descriptor, or the child itself
    (held from [fork] until [waitpid] has reaped it). *)
Inductive posix_handle : Type :=
| Fd (p : pipe_name) (e : pipe_end)
| Child.

Definition pipe_name_eqb (a b : pipe_name) : bool :=
  match a, b with
  | p_stdin, p_stdin | p_stdout, p_stdout | p_stderr, p_stderr => true
  | _, _ => false
  end.

Definition pipe_end_eqb (a b : pipe_end) : bool :=
  match a, b with
  | READ, READ | WRITE, WRITE => true
  | _, _ => false
  end.

Definition posix_handle_eqb (a b : posix_handle) : bool :=
  match a, b with
  | Fd p e, Fd q f => pipe_name_eqb p q && pipe_end_eqb e f
  | Child, Child => true
  | _, _ => false
  end.

(** What the program image is replaced with: the arguments of the [exec]
    call and the value of [environ] at the call. *)
Record exec_request : Type := {
  exec_file : option string;     (* the path or file name; [None] is a null pointer *)
  exec_searches_PATH : bool;     (* [execvp] looks the file up, [execl] does not *)
  exec_argv : list string;       (* the argument vector, up to its terminating NULL *)
  exec_environ : list string     (* the environment of the new image *)
}.

(** A NULL-terminated array is read up to its first null pointer. *)
Fixpoint until_NULL {A} (v : list (option A)) : list A :=
  match v with
  | Some a :: v' => a :: until_NULL v'
  | _ => []
  end.

Definition execl (environ : list string) (path : string) (args : list string)
  : exec_request :=
  {| exec_file := Some path; exec_searches_PATH := false;
     exec_argv := args; exec_environ := environ |}.

Definition execvp (environ : list string) (file : option string)
  (argv : list (option string)) : exec_request :=
  {| exec_file := file; exec_searches_PATH := true;
     exec_argv := until_NULL argv; exec_environ := environ |}.

(** The module's own [execvpe]: [environ = envp; execvp(program, argv)]
    (the saved value is restored only when [execvp] returns, that is
    fails). *)
Definition execvpe (environ : list string) (program : option string)
  (argv envp : list (option string)) : exec_request :=
  let saved := environ in
  let environ := until_NULL envp in
  execvp environ program argv.

(** The [pid == 0] branch of [exec_helper], up to the [exec] call. *)
Definition exec_helper_child (environ : list string) (command : option string)
  (argv : list (option string)) (env : option (list (option string)))
  : exec_request :=
  match command with
  | Some command => execl environ "/bin/sh" ["sh"; "-c"; command]
  | None =>
      match env with
      | None => execvp environ (hd None argv) argv
      | Some env => execvpe environ (hd None argv) argv env
      end
  end.

(** One call of [read] on a pipe, as the calling process sees it: bytes (the
    return value is their number) or a failure (return value -1).  A list of
    them is what the successive calls return; after the list, [read] returns
    0 (end of stream). *)
Inductive read_result : Type :=
| ReadData (lBuf : string)
| ReadFails.

Definition read_length (r : read_result) : Z :=
  match r with
  | ReadData lBuf => Z.of_nat (String.length lBuf)
  | ReadFails => -1
  end.

Definition read_data (r : read_result) : string :=
  match r with
  | ReadData lBuf => lBuf
  | ReadFails => ""
  end.

(** A run of the child, seen from the calling process. *)
Record child_run : Type := {
  run_stdout : list read_result;
  run_stderr : list read_result;
  run_stat : Z                    (* the status word [waitpid] stores *)
}.

Inductive exec_outcome : Type :=
| ExecFails (strerror : string)   (* [exec] returns; the text is strerror(errno) *)
| ExecRuns (run : child_run).

(** The operating system during one invocation. *)
Record posix_os : Type := {
  environ : list string;                   (* [environ] of the calling process *)
  pipe_rc : pipe_name -> Z;                (* return value of each [pipe] call *)
  fork_rc : option positive;               (* the child's pid, or [None]: -1 *)
  os_exec : exec_request -> exec_outcome;
  abort_dumps_core : bool;
  close_rc : posix_handle -> Z;            (* return value of each [close] *)
  waitpid_ok : bool
}.

(** The rest of the [pid == 0] branch: what the child does once [exec] has
    been called.  When [exec] returns, [perror("execl")] writes to the
    child's standard error, which is the pipe, and [abort()] ends the
    child. *)
Definition child_after_exec (os : posix_os) (req : exec_request) : child_run :=
  match os_exec os req with
  | ExecRuns run => run
  | ExecFails strerror =>
      {| run_stdout := [];
         run_stderr := [ReadData ("execl: " ++ strerror ++ newline)];
         run_stat := W_EXITCODE 0 SIGABRT
                     + (if abort_dumps_core os then WCOREFLAG else 0) |}
  end.

Record posix_state : Type := {
  held : handles posix_handle;
  execs : list exec_request;       (* the [exec] calls of the children forked *)
  from_stdout : list read_result;  (* what is still to come on [outfp] *)
  from_stderr : list read_result;  (* what is still to come on [errfp] *)
  zombie_stat : Z
}.

Definition posix_initial : posix_state :=
  {| held := no_handles; execs := []; from_stdout := []; from_stderr := [];
     zombie_stat := 0 |}.

Definition with_held (f : handles posix_handle -> handles posix_handle)
  (st : posix_state) : posix_state :=
  {| held := f (held st); execs := execs st; from_stdout := from_stdout st;
     from_stderr := from_stderr st; zombie_stat := zombie_stat st |}.

Local Open Scope exec_scope.

Definition pipe (os : posix_os) (p : pipe_name) : M posix_state Z :=
  if pipe_rc os p =? 0
  then modify (with_held (acquire [Fd p READ; Fd p WRITE])) ;; ret 0
  else ret (pipe_rc os p).

Definition close (os : posix_os) (h : posix_handle) : M posix_state Z :=
  modify (with_held (release h)) ;; ret (close_rc os h).

(** [fork], in the calling process.  The child runs the [pid == 0] branch. *)
Definition fork (os : posix_os) (command : option string)
  (argv : list (option string)) (env : option (list (option string)))
  : M posix_state Z :=
  match fork_rc os with
  | None => ret (-1)
  | Some pid =>
      let req := exec_helper_child (environ os) command argv env in
      let run := child_after_exec os req in
      modify (fun st =>
        {| held := acquire [Child] (held st);
           execs := (execs st ++ [req])%list;
           from_stdout := run_stdout run;
           from_stderr := run_stderr run;
           zombie_stat := run_stat run |}) ;;
      ret (Z.pos pid)
  end.

(** [exec_helper], in the calling process.  [infp], [outfp] and [errfp]
    tell whether the pointer is non-null; when it is, the descriptor stored
    through it is [p_stdin[WRITE]], [p_stdout[READ]], [p_stderr[READ]]. *)
Definition exec_helper (os : posix_os) (infp outfp errfp : bool)
  (command : option string) (argv : list (option string))
  (env : option (list (option string))) : M posix_state Z :=
  rc <- pipe os p_stdin ;;
  if negb (rc =? 0) then ret (-1) else
  rc <- pipe os p_stdout ;;
  if negb (rc =? 0) then ret (-1) else
  rc <- pipe os p_stderr ;;
  if negb (rc =? 0) then ret (-1) else
  pid <- fork os command argv env ;;
  if pid <? 0 then ret pid else
  (if infp then ret 0 else close os (Fd p_stdin WRITE)) ;;
  (if outfp then ret 0 else close os (Fd p_stdout READ)) ;;
  (if errfp then ret 0 else close os (Fd p_stderr READ)) ;;
  close os (Fd p_stdin READ) ;;
  close os (Fd p_stdout WRITE) ;;
  close os (Fd p_stderr WRITE) ;;
  ret pid.

(** The loop [while ((length = read(fd, lBuf, PATH_MAX)) > 0)
    stream.write(lBuf, length)], over what the calls of [read] return. *)
Fixpoint read_loop (reads : list read_result) (stream : string)
  : string * list read_result :=
  match reads with
  | [] => (stream, [])
  | r :: rest =>
      if 0 <? read_length r
      then read_loop rest (stream ++ read_data r)
      else (stream, rest)
  end.

Definition drain_outfp : M posix_state string :=
  fun st =>
    let (lStdout, rest) := read_loop (from_stdout st) "" in
    (Returned lStdout,
     {| held := held st; execs := execs st; from_stdout := rest;
        from_stderr := from_stderr st; zombie_stat := zombie_stat st |}).

Definition drain_errfp : M posix_state string :=
  fun st =>
    let (lStderr, rest) := read_loop (from_stderr st) "" in
    (Returned lStderr,
     {| held := held st; execs := execs st; from_stdout := from_stdout st;
        from_stderr := rest; zombie_stat := zombie_stat st |}).

(** [waitpid(pid, &stat, 0)]: the return value and [stat]. *)
Definition waitpid (os : posix_os) (pid : Z) : M posix_state (Z * Z) :=
  if waitpid_ok os
  then modify (with_held (release Child)) ;;
       stat <- gets zombie_stat ;;
       ret (pid, stat)
  else ret (-1, 0).

(** The vectors [argv] and [env] of [evaluate]: allocated full of null
    pointers, filled only when [theIsExecProgram]. *)
Definition argv_of (theIsExecProgram : bool) (lCommand : string)
  (lArgs : list string) : list (option string) :=
  if theIsExecProgram
  then (Some (strdup (c_str lCommand))
        :: map (fun a => Some (strdup (c_str a))) lArgs ++ [None])%list
  else repeat None (List.length lArgs + 2).

Definition env_of (theIsExecProgram : bool) (lEnv : list string)
  : list (option string) :=
  if theIsExecProgram
  then (map (fun e => Some (strdup (c_str e))) lEnv ++ [None])%list
  else repeat None (List.length lEnv + 1).

(** The POSIX branch of [ExecFunction::evaluate].  The [catch (...)] block
    frees the two vectors and rethrows: it changes neither the exception
    nor the handles. *)
Definition evaluate_posix (os : posix_os) (theIsExecProgram : bool)
  (lCommand : string) (lArgs lEnv : list string)
  : M posix_state ExecutionResult :=
  let lTmp := command_line POSIX lCommand lArgs in
  let argv := argv_of theIsExecProgram lCommand lArgs in
  let env := env_of theIsExecProgram lEnv in
  pid <- (if theIsExecProgram
          then exec_helper os false true true None argv
                 (if (0 <? Z.of_nat (List.length lEnv)) then Some env else None)
          else exec_helper os false true true (Some (c_str lTmp)) argv None) ;;
  if pid =? -1 then throw (FailedToExecute pid) else
  lStdout <- drain_outfp ;;
  status <- close os (Fd p_stdout READ) ;;
  lStderr <- drain_errfp ;;
  status <- close os (Fd p_stderr READ) ;;
  if status <? 0 then throw (FailedToCloseErr status) else
  w_stat <- waitpid os pid ;;
  let (w, stat) := w_stat : Z * Z in
  if w =? -1 then throw FailedToWait else
  let exit_code := exit_code_of glibc stat in
  ret (create_result_object lStdout lStderr exit_code).

(** The three pipes and the child are created: [exec_helper] returns the
    pid of the child. *)
Definition spawns (os : posix_os) : bool :=
  (pipe_rc os p_stdin =? 0) && (pipe_rc os p_stdout =? 0)
  && (pipe_rc os p_stderr =? 0)
  && match fork_rc os with Some _ => true | None => false end.

(** The [exec] call of the child of [evaluate]. *)
Definition posix_request (os : posix_os) (theIsExecProgram : bool)
  (lCommand : string) (lArgs lEnv : list string) : exec_request :=
  let argv := argv_of theIsExecProgram lCommand lArgs in
  let env := env_of theIsExecProgram lEnv in
  if theIsExecProgram
  then exec_helper_child (environ os) None argv
         (if (0 <? Z.of_nat (List.length lEnv)) then Some env else None)
  else exec_helper_child (environ os)
         (Some (c_str (command_line POSIX lCommand lArgs))) argv None.

(** The value holds no NUL byte: it is a C string as it stands.  The three
    arguments of [evaluate] are such values, each having been copied from
    a [c_str()]. *)
Definition C_string (s : string) : Prop := c_str s = s.

(** ** The WIN32 backend *)

(** The handles of [run_process]; [hProcess] and [hThread] are the two
    handles of the [PROCESS_INFORMATION] that [CreateProcess] fills. *)
Inductive win_handle : Type :=
| lOutRead | lStdOut | lErrRead | lStdErr | hProcess | hThread.

Definition win_handle_eqb (a b : win_handle) : bool :=
  match a, b with
  | lOutRead, lOutRead | lStdOut, lStdOut | lErrRead, lErrRead
  | lStdErr, lStdErr | hProcess, hProcess | hThread, hThread => true
  | _, _ => false
  end.

(** The arguments of the [CreateProcess] call that matter here. *)
Record create_process_args : Type := {
  lpApplicationName : option string;
  lpCommandLine : string;
  bInheritHandles : bool;
  lpEnvironment : option (list string);  (* [None] is NULL: the caller's environment *)
  hStdOutput : win_handle;
  hStdError : win_handle
}.

(** One call of [ReadFile]: its return value, the bytes it stored, and what
    [GetLastError] answers after it. *)
Record win_read : Type := {
  read_ok : bool;
  read_bytes : string;
  read_last_error : Z
}.

Definition ERROR_BROKEN_PIPE : Z := 109.

Record win_run : Type := {
  win_stdout : list win_read;
  win_stderr : list win_read;
  win_exit_code : Z               (* the DWORD of [GetExitCodeProcess] *)
}.

Record win_os : Type := {
  win_environ : list string;
  create_pipe_ok : win_handle -> bool;       (* indexed by the read handle *)
  create_process : create_process_args -> option win_run;  (* [None]: FALSE *)
  create_process_error : Z;                  (* [GetLastError] after a FALSE *)
  get_exit_code_ok : bool
}.

Record win_state : Type := {
  win_held : handles win_handle;
  created : list create_process_args;
  win_child : option win_run
}.

Definition win_initial : win_state :=
  {| win_held := no_handles; created := []; win_child := None |}.

Definition win_with_held (f : handles win_handle -> handles win_handle)
  (st : win_state) : win_state :=
  {| win_held := f (win_held st); created := created st;
     win_child := win_child st |}.

(** The conversion of a DWORD to [int]. *)
Definition int_of_DWORD (z : Z) : Z := int_of_size_t z.

Definition strip_CR_byte (a : ascii) (s : string) : string :=
  if Ascii.eqb a "013" then s else String a s.

(** The inner loop of [read_child_output]: every byte but ['\r']. *)
Fixpoint without_CR (lBuffer : string) : string :=
  match lBuffer with
  | EmptyString => EmptyString
  | String a rest => strip_CR_byte a (without_CR rest)
  end.

(** [read_child_output], over what the calls of [ReadFile] return; once the
    list is over, [ReadFile] fails with [ERROR_BROKEN_PIPE]. *)
Fixpoint read_child_output (reads : list win_read) (aTargetStream : string)
  : result string :=
  match reads with
  | [] => Returned aTargetStream
  | r :: rest =>
      if negb (read_ok r) || (Z.of_nat (String.length (read_bytes r)) =? 0)
      then if read_last_error r =? ERROR_BROKEN_PIPE
           then Returned aTargetStream
           else Thrown (LastError 137 (read_last_error r))
      else read_child_output rest (aTargetStream ++ without_CR (read_bytes r))
  end.

Definition CreatePipe (os : win_os) (rd wr : win_handle) : M win_state bool :=
  if create_pipe_ok os rd
  then modify (win_with_held (acquire [rd; wr])) ;; ret true
  else ret false.

Definition CloseHandle (h : win_handle) : M win_state unit :=
  modify (win_with_held (release h)).

(** [create_child_process]: the command line is copied as a C string and
    passed as [lpCommandLine]; [lApplicationName] and [lEnvironment] are
    NULL. *)
Definition create_child_process (os : win_os) (aStdOutputPipe aStdErrorPipe : win_handle)
  (aCommand : string) : M win_state bool :=
  let tmpCommand := c_str aCommand in
  let args := {| lpApplicationName := None; lpCommandLine := tmpCommand;
                 bInheritHandles := true; lpEnvironment := None;
                 hStdOutput := aStdOutputPipe; hStdError := aStdErrorPipe |} in
  match create_process os args with
  | None => ret false
  | Some run =>
      modify (fun st =>
        {| win_held := acquire [hProcess; hThread] (win_held st);
           created := (created st ++ [args])%list;
           win_child := Some run |}) ;;
      ret true
  end.

Definition lift_result {St A} (r : result A) : M St A := fun st => (r, st).

(** [run_process]: the exit code, and the two target streams.  The wait
    for the child ([WaitForSingleObject]) comes before the first read. *)
Definition run_process (os : win_os) (aCommand : string)
  : M win_state (Z * string * string) :=
  ok1 <- CreatePipe os lOutRead lStdOut ;;
  ok2 <- (if ok1 : bool then CreatePipe os lErrRead lStdErr else ret false) ;;
  if negb ok1 || negb ok2 then throw NoPipe else
  ok <- create_child_process os lStdOut lStdErr aCommand ;;
  if ok : bool then
    CloseHandle hThread ;;
    child <- gets win_child ;;
    let run := match child with
               | Some run => run
               | None => {| win_stdout := []; win_stderr := []; win_exit_code := 0 |}
               end in
    if negb (get_exit_code_ok os) then throw (NoExitCode aCommand) else
    let exitCode := win_exit_code run in
    CloseHandle hProcess ;;
    CloseHandle lStdOut ;;
    CloseHandle lStdErr ;;
    aTargetOutStream <- lift_result (read_child_output (win_stdout run) "") ;;
    aTargetErrStream <- lift_result (read_child_output (win_stderr run) "") ;;
    CloseHandle lOutRead ;;
    CloseHandle lErrRead ;;
    ret (int_of_DWORD exitCode, aTargetOutStream, aTargetErrStream)
  else
    CloseHandle lStdOut ;;
    CloseHandle lStdErr ;;
    CloseHandle lOutRead ;;
    CloseHandle lErrRead ;;
    throw (LastError 285 (create_process_error os)).

(** The WIN32 branch of [ExecFunction::evaluate]: [theIsExecProgram] and
    [lEnv] are not read. *)
Definition evaluate_win32 (os : win_os) (theIsExecProgram : bool)
  (lCommand : string) (lArgs lEnv : list string)
  : M win_state ExecutionResult :=
  let lCommandLineString := command_line WIN32 lCommand lArgs in
  r <- run_process os lCommandLineString ;;
  let '(code, lStdout, lStderr) := r : Z * string * string in
  if negb (code =? 0) then throw (FailedToExecute code) else
  let exit_code := code in
  ret (create_result_object lStdout lStderr exit_code).

(** The [CreateProcess] call of [evaluate]. *)
Definition win_request (lCommand : string) (lArgs : list string)
  : create_process_args :=
  {| lpApplicationName := None;
     lpCommandLine := c_str (command_line WIN32 lCommand lArgs);
     bInheritHandles := true; lpEnvironment := None;
     hStdOutput := lStdOut; hStdError := lStdErr |}.

(** ** Both backends *)

(** The platform the module was built for, with its operating system. *)
Inductive platform : Type :=
| Posix (os : posix_os)
| Win32 (os : win_os).

Definition backend_of (pf : platform) : backend :=
  match pf with
  | Posix _ => POSIX
  | Win32 _ => WIN32
  end.

(** [ExecFunction::evaluate], from the three marshalled arguments to what
    the caller receives. *)
Definition evaluate (pf : platform) (theIsExecProgram : bool)
  (lCommand : string) (lArgs lEnv : list string) : result ExecutionResult :=
  match pf with
  | Posix os => fst (evaluate_posix os theIsExecProgram lCommand lArgs lEnv posix_initial)
  | Win32 os => fst (evaluate_win32 os theIsExecProgram lCommand lArgs lEnv win_initial)
  end.

(** How the child of an invocation was launched. *)
Inductive launch : Type :=
| ByExec (req : exec_request)
| ByCreateProcess (args : create_process_args).

Definition launches (pf : platform) (theIsExecProgram : bool)
  (lCommand : string) (lArgs lEnv : list string) : list launch :=
  match pf with
  | Posix os =>
      map ByExec
        (execs (snd (evaluate_posix os theIsExecProgram lCommand lArgs lEnv posix_initial)))
  | Win32 os =>
      map ByCreateProcess
        (created (snd (evaluate_win32 os theIsExecProgram lCommand lArgs lEnv win_initial)))
  end.

(** The environment the launched child starts with. *)
Definition child_environment (pf : platform) (l : launch) : list string :=
  match l with
  | ByExec req => exec_environ req
  | ByCreateProcess args =>
      match lpEnvironment args, pf with
      | Some e, _ => e
      | None, Win32 os => win_environ os
      | None, Posix os => environ os
      end
  end.

(** The environment of the calling process. *)
Definition parent_environment (pf : platform) : list string :=
  match pf with
  | Posix os => environ os
  | Win32 os => win_environ os
  end.

(** The child is given the program and the arguments as a vector: the
    launch names the program as the file to run and carries exactly the
    vector [v]. *)
Definition passes_vector (l : launch) (v : list string) : Prop :=
  match l with
  | ByExec req => exec_file req = hd_error v /\ exec_argv req = v
  | ByCreateProcess _ => False
  end.

(** The child is a command interpreter that is handed one command line. *)
Definition runs_shell_on (l : launch) (line : string) : Prop :=
  match l with
  | ByExec req =>
      exec_file req = Some "/bin/sh" /\ exec_argv req = ["sh"; "-c"; line]
  | ByCreateProcess args =>
      lpApplicationName args = None /\
      lpCommandLine args = "cmd /C " ++ dquote ++ line ++ dquote
  end.

(** The handles the invocation leaves behind. *)
Definition posix_handles_after (os : posix_os) (theIsExecProgram : bool)
  (lCommand : string) (lArgs lEnv : list string) : handles posix_handle :=
  held (snd (evaluate_posix os theIsExecProgram lCommand lArgs lEnv posix_initial)).

Definition win_handles_after (os : win_os) (theIsExecProgram : bool)
  (lCommand : string) (lArgs lEnv : list string) : handles win_handle :=
  win_held (snd (evaluate_win32 os theIsExecProgram lCommand lArgs lEnv win_initial)).

(** The spec's taxonomy, on the exceptions of the module. *)
Definition failure_of (e : exec_error) : failure :=
  match e with
  | FailedToExecute _ => SpawnFailure
  | NoPipe => SpawnFailure
  | LastError aLineNumber _ =>
      if aLineNumber =? 137 then DrainFailure else SpawnFailure
  | FailedToCloseErr _ => DrainFailure
  | FailedToWait => WaitFailure
  | NoExitCode _ => WaitFailure
  end.

(** ** Runs of the child *)

(** The file does not exist or cannot be executed: every [exec] call that
    names it returns, and [strerror(errno)] is this text. *)
Definition cannot_execute (os : posix_os) (file strerror : string) : Prop :=
  forall req, exec_file req = Some file -> os_exec os req = ExecFails strerror.

(** Neither drain of the WIN32 backend throws. *)
Definition win_drains (run : win_run) : Prop :=
  (exists out, read_child_output (win_stdout run) "" = Returned out) /\
  (exists err, read_child_output (win_stderr run) "" = Returned err).

(** The child is created, runs and exits normally with code [c], and
    neither the drains nor the wait fail. *)
Definition exits_normally (pf : platform) (theIsExecProgram : bool)
  (lCommand : string) (lArgs lEnv : list string) (c : Z) : Prop :=
  match pf with
  | Posix os =>
      spawns os = true /\
      (exists run,
         os_exec os (posix_request os theIsExecProgram lCommand lArgs lEnv)
         = ExecRuns run /\ run_stat run = W_EXITCODE c 0) /\
      0 <= close_rc os (Fd p_stderr READ) /\
      waitpid_ok os = true
  | Win32 os =>
      create_pipe_ok os lOutRead && create_pipe_ok os lErrRead = true /\
      (exists run,
         create_process os (win_request lCommand lArgs) = Some run /\
         win_exit_code run = c /\ win_drains run) /\
      get_exit_code_ok os = true
  end.

(** ** Operating systems to run the model on *)

(** A POSIX system on which every call succeeds but as told otherwise. *)
Definition posix_os_with (pipes : pipe_name -> Z) (forked : option positive)
  (exec : exec_request -> exec_outcome) (close_errfp : Z) (wait_ok : bool)
  : posix_os :=
  {| environ := ["PATH=/usr/bin:/bin"; "HOME=/root"];
     pipe_rc := pipes;
     fork_rc := forked;
     os_exec := exec;
     abort_dumps_core := true;
     close_rc := fun h =>
       if posix_handle_eqb h (Fd p_stderr READ) then close_errfp else 0;
     waitpid_ok := wait_ok |}.

Definition healthy_posix (exec : exec_request -> exec_outcome) : posix_os :=
  posix_os_with (fun _ => 0) (Some 4242%positive) exec 0 true.

(** A shell that does not find the command it is given: it says so on its
    standard error and exits with code 127. *)
Definition shell_reports_missing : child_run :=
  {| run_stdout := [];
     run_stderr := [ReadData ("sh: 1: /no/such/program: not found" ++ newline)];
     run_stat := W_EXITCODE 127 0 |}.

(** A POSIX system on which every call succeeds and [/bin/sh] is the only
    file that can be executed. *)
Definition only_shell_posix : posix_os :=
  healthy_posix (fun req =>
    match exec_file req with
    | Some file =>
        if String.eqb file "/bin/sh" then ExecRuns shell_reports_missing
        else ExecFails "No such file or directory"
    | None => ExecFails "Bad address"
    end).

(** A WIN32 system on which every call succeeds; the child does [run]. *)
Definition healthy_win32 (run : win_run) : win_os :=
  {| win_environ := ["PATH=C:/Windows"; "TEMP=C:/Temp"];
     create_pipe_ok := fun _ => true;
     create_process := fun _ => Some run;
     create_process_error := 0;
     get_exit_code_ok := true |}.

Definition silent_exit (code : Z) : win_run :=
  {| win_stdout := []; win_stderr := []; win_exit_code := code |}.

(** ** The drain and the child, side by side

    The read loops of the POSIX branch block, and so does a child that
    writes to a full pipe.  This module runs the two processes as one
    transition system: the child does its writes in order and exits; the
    calling process reads [outfp] to the end, closes it, reads [errfp] to
    the end, closes it, and waits. *)
Module Interleaving.

Definition bytes : Type := list Byte.byte.

Inductive stream : Type := Out | Err.

Record config : Type := {
  capacity : nat;   (* bytes a pipe holds before a write blocks *)
  PATH_MAX : nat    (* the size of [lBuf] *)
}.

(** Where the calling process is in [evaluate]. *)
Inductive parent_pc : Type := ReadOut | ReadErr | Wait | Done.

Record sys : Type := {
  todo : list (stream * bytes);  (* the writes the child has still to do *)
  alive : bool;                  (* the child has not exited *)
  in_stdout : bytes;             (* written to the pipe and not yet read *)
  in_stderr : bytes;
  pc : parent_pc;
  lStdout : bytes;
  lStderr : bytes
}.

Definition start (prog : list (stream * bytes)) : sys :=
  {| todo := prog; alive := true; in_stdout := []; in_stderr := [];
     pc := ReadOut; lStdout := []; lStderr := [] |}.

Definition in_pipe (p : stream) (s : sys) : bytes :=
  match p with
  | Out => in_stdout s
  | Err => in_stderr s
  end.

(** The calling process still holds the read end of the pipe. *)
Definition reader_open (p : stream) (s : sys) : bool :=
  match p, pc s with
  | Out, ReadOut => true
  | Err, ReadOut => true
  | Err, ReadErr => true
  | _, _ => false
  end.

Definition set_child (td : list (stream * bytes)) (al : bool) (s : sys) : sys :=
  {| todo := td; alive := al; in_stdout := in_stdout s;
     in_stderr := in_stderr s; pc := pc s; lStdout := lStdout s;
     lStderr := lStderr s |}.

Definition push (p : stream) (data : bytes) (s : sys) : sys :=
  {| todo := todo s; alive := alive s;
     in_stdout := match p with Out => in_stdout s ++ data | Err => in_stdout s end;
     in_stderr := match p with Err => in_stderr s ++ data | Out => in_stderr s end;
     pc := pc s; lStdout := lStdout s; lStderr := lStderr s |}%list.

(** One move of the child: it exits when it has nothing left to write (the
    write ends of both pipes close with it); a write call returns when all
    its bytes are in the pipe; a write to a pipe with no reader kills the
    child (SIGPIPE); a write to a full pipe blocks; otherwise as many bytes
    as fit go into the pipe. *)
Definition child_step (c : config) (s : sys) : option sys :=
  if alive s then
    match todo s with
    | [] => Some (set_child [] false s)
    | (p, data) :: rest =>
        match data with
        | [] => Some (set_child rest true s)
        | _ :: _ =>
            if negb (reader_open p s) then Some (set_child rest false s)
            else
              let room := (capacity c - List.length (in_pipe p s))%nat in
              if Nat.eqb room 0 then None
              else
                let n := Nat.min room (List.length data) in
                Some (push p (firstn n data)
                        (set_child ((p, skipn n data) :: rest) true s))
        end
    end
  else None.

Definition set_parent (po pe : bytes) (k : parent_pc) (so se : bytes) (s : sys)
  : sys :=
  {| todo := todo s; alive := alive s; in_stdout := po; in_stderr := pe;
     pc := k; lStdout := so; lStderr := se |}.

(** One move of the calling process.  In a read loop, [read] blocks while
    the pipe is empty and the child lives; otherwise it returns up to
    [PATH_MAX] bytes, and the loop goes on while that number is positive. *)
Definition parent_step (c : config) (s : sys) : option sys :=
  match pc s with
  | ReadOut =>
      match in_stdout s, alive s with
      | [], true => None
      | _, _ =>
          let length := Nat.min (PATH_MAX c) (List.length (in_stdout s)) in
          if Nat.ltb 0 length
          then Some (set_parent (skipn length (in_stdout s)) (in_stderr s) ReadOut
                       (lStdout s ++ firstn length (in_stdout s))%list (lStderr s) s)
          else Some (set_parent (in_stdout s) (in_stderr s) ReadErr
                       (lStdout s) (lStderr s) s)
      end
  | ReadErr =>
      match in_stderr s, alive s with
      | [], true => None
      | _, _ =>
          let length := Nat.min (PATH_MAX c) (List.length (in_stderr s)) in
          if Nat.ltb 0 length
          then Some (set_parent (in_stdout s) (skipn length (in_stderr s)) ReadErr
                       (lStdout s) (lStderr s ++ firstn length (in_stderr s))%list s)
          else Some (set_parent (in_stdout s) (in_stderr s) Wait
                       (lStdout s) (lStderr s) s)
      end
  | Wait =>
      if alive s then None
      else Some (set_parent (in_stdout s) (in_stderr s) Done
                   (lStdout s) (lStderr s) s)
  | Done => None
  end.

Inductive step (c : config) : sys -> sys -> Prop :=
| step_child s s' : child_step c s = Some s' -> step c s s'
| step_parent s s' : parent_step c s = Some s' -> step c s s'.

(** [steps c n s s']: some schedule takes [s] to [s'] in [n] moves. *)
Inductive steps (c : config) : nat -> sys -> sys -> Prop :=
| steps_O s : steps c O s s
| steps_S n s s' s'' : steps c n s s' -> step c s' s'' -> steps c (S n) s s''.

(** Nobody can move and the invocation has not returned. *)
Definition deadlocked (c : config) (s : sys) : Prop :=
  pc s <> Done /\ child_step c s = None /\ parent_step c s = None.

(** All the bytes a program writes to one stream. *)
Fixpoint written (p : stream) (prog : list (stream * bytes)) : bytes :=
  match prog with
  | [] => []
  | (q, data) :: rest =>
      match p, q with
      | Out, Out | Err, Err => (data ++ written p rest)%list
      | _, _ => written p rest
      end
  end.


Fixpoint todo_weight (td : list (stream * bytes)) : nat :=
  match td with
  | [] => 0
  | (_, data) :: rest => (2 * List.length data + 1 + todo_weight rest)%nat
  end.


(** What every reachable state of a run of [prog] satisfies: no byte is
    lost or duplicated on either stream; the calling process leaves the
    first loop only once the child is gone and its [stdout] pipe is empty;
    a child that is gone has nothing left to write; nothing is read from
    [errfp] before [outfp] is closed. *)
Definition invariant (prog : list (stream * bytes)) (s : sys) : Prop :=
  (lStdout s ++ in_stdout s ++ written Out (todo s) = written Out prog)%list /\
  (lStderr s ++ in_stderr s ++ written Err (todo s) = written Err prog)%list /\
  (pc s <> ReadOut -> alive s = false /\ in_stdout s = []) /\
  (alive s = false -> todo s = []) /\
  (pc s = ReadOut -> lStderr s = []) /\
  (pc s = Wait \/ pc s = Done -> in_stderr s = []).

(** A schedule says who moves next ([true]: the child); it runs as far as
    every move it asks for is possible. *)
Fixpoint run_schedule (c : config) (schedule : list bool) (s : sys)
  : option sys :=
  match schedule with
  | [] => Some s
  | who :: rest =>
      match (if who : bool then child_step c s else parent_step c s) with
      | Some s' => run_schedule c rest s'
      | None => None
      end
  end.



End Interleaving.

(** ** The marshalling loops of [evaluate] *)

(** The loop over the items of [aArgs[pos]], run only when [aArgs] has
    more than [pos] entries: each item's string value is pushed through its
    [c_str()]. *)
Definition marshal_sequence (aArgs : list (list string)) (pos : nat)
  : list string :=
  if Nat.ltb pos (List.length aArgs)
  then map (fun lArg => c_str lArg) (nth pos aArgs [])
  else [].

(** The same system with other return values for [close]. *)
Definition with_close_rc (os : posix_os) (rc : posix_handle -> Z) : posix_os :=
  {| environ := environ os;
     pipe_rc := pipe_rc os;
     fork_rc := fork_rc os;
     os_exec := os_exec os;
     abort_dumps_core := abort_dumps_core os;
     close_rc := rc;
     waitpid_ok := waitpid_ok os |}.

(** All the bytes a list of reads delivers. *)
Definition delivered (reads : list read_result) : string :=
  join (map read_data reads).

Definition win_delivered (reads : list win_read) : string :=
  join (map read_bytes reads).

(** A [ReadFile] that lets the loop of [read_child_output] go on. *)
Definition goes_on (r : win_read) : Prop :=
  read_ok r = true /\ read_bytes r <> "".

Definition CR : ascii := "013"%char.

(** ** The function registry of [ProcessModule] *)

(** An [ExecFunction]; of its members only the mode matters here. *)
Record ExecFunction : Type := { theIsExecProgram : bool }.

(** A pointer to an [ExecFunction]: null, or the address [new] gave. *)
Definition pointer : Type := option nat.

(** A [ProcessModule]: the map [theFunctions] (its type, [FuncMap_t], is
    declared in [process.h]; here the entries are kept in the order they
    were made), with the objects made by [new] and not yet deleted, the
    next address [new] gives, and the addresses passed to [delete]. *)
Record ProcessModule : Type := {
  theFunctions : list (string * pointer);
  heap : list (nat * ExecFunction);
  next_address : nat;
  deleted : list nat
}.

Definition new_module : ProcessModule :=
  {| theFunctions := []; heap := []; next_address := 0; deleted := [] |}.

(** [theFunctions.find(aLocalname)]; [None] is [theFunctions.end()]. *)
Fixpoint map_find (aLocalname : string) (m : list (string * pointer))
  : option pointer :=
  match m with
  | [] => None
  | (k, v) :: m' => if String.eqb k aLocalname then Some v else map_find aLocalname m'
  end.

(** [theFunctions[aLocalname]]: the entry is made, holding a null pointer,
    when there is none. *)
Definition map_subscript (aLocalname : string) (m : list (string * pointer))
  : list (string * pointer) :=
  match map_find aLocalname m with
  | Some _ => m
  | None => (m ++ [(aLocalname, None)])%list
  end.

(** An assignment through the reference [lFunc] to the entry. *)
Fixpoint map_assign (aLocalname : string) (p : pointer)
  (m : list (string * pointer)) : list (string * pointer) :=
  match m with
  | [] => []
  | (k, v) :: m' =>
      if String.eqb k aLocalname then (k, p) :: m'
      else (k, v) :: map_assign aLocalname p m'
  end.

Definition with_functions (m : list (string * pointer)) (st : ProcessModule)
  : ProcessModule :=
  {| theFunctions := m; heap := heap st; next_address := next_address st;
     deleted := deleted st |}.

(** [new ExecFunction(this, aExecProgram)]. *)
Definition new_ExecFunction (aExecProgram : bool) (st : ProcessModule)
  : nat * ProcessModule :=
  (next_address st,
   {| theFunctions := theFunctions st;
      heap := (heap st ++ [(next_address st,
                            {| theIsExecProgram := aExecProgram |})])%list;
      next_address := S (next_address st);
      deleted := deleted st |}).

(** [ProcessModule::getExternalFunction].  [default_mode] is the default
    value of the second argument of the constructor of [ExecFunction],
    which [process.h] declares. *)
Definition getExternalFunction (default_mode : bool) (aLocalname : string)
  (st : ProcessModule) : pointer * ProcessModule :=
  let lFind := map_find aLocalname (theFunctions st) in
  let st := with_functions (map_subscript aLocalname (theFunctions st)) st in
  let st :=
    match lFind with
    | None =>
        if String.eqb aLocalname "exec-command" then
          let (a, st) := new_ExecFunction default_mode st in
          with_functions (map_assign aLocalname (Some a) (theFunctions st)) st
        else if String.eqb aLocalname "exec" then
          let (a, st) := new_ExecFunction true st in
          with_functions (map_assign aLocalname (Some a) (theFunctions st)) st
        else st
    | Some _ => st
    end in
  let lFunc := match map_find aLocalname (theFunctions st) with
               | Some p => p
               | None => None
               end in
  (lFunc, st).

(** [delete p]: nothing for a null pointer. *)
Definition delete (p : pointer) (st : ProcessModule) : ProcessModule :=
  match p with
  | None => st
  | Some a =>
      {| theFunctions := theFunctions st;
         heap := filter (fun o => negb (Nat.eqb (fst o) a)) (heap st);
         next_address := next_address st;
         deleted := (deleted st ++ [a])%list |}
  end.

(** Ascending order of the keys, bytewise: the order in which an ordered
    map of strings is walked from [begin()] to [end()]. *)
Fixpoint key_insert (e : string * pointer) (m : list (string * pointer))
  : list (string * pointer) :=
  match m with
  | [] => [e]
  | e' :: m' =>
      if String.leb (fst e) (fst e') then e :: e' :: m'
      else e' :: key_insert e m'
  end.

Definition key_order (m : list (string * pointer)) : list (string * pointer) :=
  fold_right key_insert [] m.

(** [ProcessModule::~ProcessModule]: the function of every entry is
    deleted, from [theFunctions.begin()] to [theFunctions.end()], then the
    map is cleared.  The order of that walk is the one of [FuncMap_t],
    which [process.h] declares: [iteration] gives it, from the entries as
    [theFunctions] keeps them here; [key_order] is the one of an ordered
    map. *)
Definition destroy_module
  (iteration : list (string * pointer) -> list (string * pointer))
  (st : ProcessModule) : ProcessModule :=
  with_functions []
    (fold_left (fun st lIter => delete (snd lIter) st)
       (iteration (theFunctions st)) st).

(** The module after the host has asked for these names in turn. *)
Definition lookups (default_mode : bool) (names : list string) : ProcessModule :=
  fold_left (fun st name => snd (getExternalFunction default_mode name st))
    names new_module.

(** The pointers held by the map that are not null, in the order of the
    entries. *)
Fixpoint held_pointers (m : list (string * pointer)) : list nat :=
  match m with
  | [] => []
  | (_, Some a) :: m' => a :: held_pointers m'
  | (_, None) :: m' => held_pointers m'
  end.

(** The names of the entries that are not null, in the order of the
    entries. *)
Fixpoint function_names (m : list (string * pointer)) : list string :=
  match m with
  | [] => []
  | (k, Some _) :: m' => k :: function_names m'
  | (_, None) :: m' => function_names m'
  end.

(** What holds of a module after any lookups: an entry is not null exactly
    when its name is one of the two function names; the objects alive are
    those the map points to, numbered as they were made; nothing has been
    deleted. *)
Definition registry_invariant (default_mode : bool) (st : ProcessModule) : Prop :=
  (forall k p, map_find k (theFunctions st) = Some p ->
     match p with
     | Some a =>
         (k = "exec" /\ In (a, {| theIsExecProgram := true |}) (heap st)) \/
         (k = "exec-command" /\
          In (a, {| theIsExecProgram := default_mode |}) (heap st))
     | None => k <> "exec" /\ k <> "exec-command"
     end) /\
  held_pointers (theFunctions st) = map fst (heap st) /\
  map fst (heap st) = seq 0 (next_address st) /\
  NoDup (map fst (theFunctions st)) /\
  (forall k, In k (map fst (theFunctions st)) <->
             map_find k (theFunctions st) <> None) /\
  deleted st = [].

(** ** [run_process] and the child, side by side

    [run_process] waits for the child to end ([WaitForSingleObject]) before
    it reads anything, reads the whole of [lOutRead] and then the whole of
    [lErrRead].  This module runs it against a child that does its writes
    in order and exits, as [Interleaving] does for the POSIX branch. *)
Module WaitThenRead.

Import Interleaving.

(** The size of [lBuffer] in [read_child_output]. *)
Definition lBuffer_size : nat := 256.

(** The size [run_process] asks [CreatePipe] for. *)
Definition requested_nSize : nat := 1024 * 1024.

Definition win_start (prog : list (stream * bytes)) : sys :=
  {| todo := prog; alive := true; in_stdout := []; in_stderr := [];
     pc := Wait; lStdout := []; lStderr := [] |}.

(** The inner loop of [read_child_output], on bytes. *)
Definition drop_CR (lBuffer : bytes) : bytes :=
  filter (fun b => negb (Byte.eqb b Byte.x0d)) lBuffer.

(** One move of the child; [nSize] is what a pipe holds before a write
    blocks.  The calling process keeps its read handles until the end, so a
    write never finds the pipe without a reader. *)
Definition win_child_step (nSize : nat) (s : sys) : option sys :=
  if alive s then
    match todo s with
    | [] => Some (set_child [] false s)
    | (p, data) :: rest =>
        match data with
        | [] => Some (set_child rest true s)
        | _ :: _ =>
            let room := (nSize - List.length (in_pipe p s))%nat in
            if Nat.eqb room 0 then None
            else
              let n := Nat.min room (List.length data) in
              Some (push p (firstn n data)
                      (set_child ((p, skipn n data) :: rest) true s))
        end
    end
  else None.

(** One move of the calling process: the wait returns once the child has
    ended; then each [ReadFile] takes up to [lBuffer_size] bytes, and on an
    empty pipe whose writer is gone it fails with a broken pipe, which ends
    the loop. *)
Definition win_parent_step (s : sys) : option sys :=
  match pc s with
  | Wait =>
      if alive s then None
      else Some (set_parent (in_stdout s) (in_stderr s) ReadOut
                   (lStdout s) (lStderr s) s)
  | ReadOut =>
      match in_stdout s with
      | [] =>
          if alive s then None
          else Some (set_parent (in_stdout s) (in_stderr s) ReadErr
                       (lStdout s) (lStderr s) s)
      | _ :: _ =>
          let lBytesRead := Nat.min lBuffer_size (List.length (in_stdout s)) in
          Some (set_parent (skipn lBytesRead (in_stdout s)) (in_stderr s) ReadOut
                  (lStdout s ++ drop_CR (firstn lBytesRead (in_stdout s)))%list
                  (lStderr s) s)
      end
  | ReadErr =>
      match in_stderr s with
      | [] =>
          if alive s then None
          else Some (set_parent (in_stdout s) (in_stderr s) Done
                       (lStdout s) (lStderr s) s)
      | _ :: _ =>
          let lBytesRead := Nat.min lBuffer_size (List.length (in_stderr s)) in
          Some (set_parent (in_stdout s) (skipn lBytesRead (in_stderr s)) ReadErr
                  (lStdout s)
                  (lStderr s ++ drop_CR (firstn lBytesRead (in_stderr s)))%list s)
      end
  | Done => None
  end.

Inductive win_step (nSize : nat) : sys -> sys -> Prop :=
| win_step_child s s' : win_child_step nSize s = Some s' -> win_step nSize s s'
| win_step_parent s s' : win_parent_step s = Some s' -> win_step nSize s s'.

Inductive win_steps (nSize : nat) : nat -> sys -> sys -> Prop :=
| win_steps_O s : win_steps nSize O s s
| win_steps_S n s s' s'' :
    win_steps nSize n s s' -> win_step nSize s' s'' ->
    win_steps nSize (S n) s s''.

Definition win_deadlocked (nSize : nat) (s : sys) : Prop :=
  pc s <> Done /\ win_child_step nSize s = None /\ win_parent_step s = None.

Definition win_pc_weight (k : parent_pc) : nat :=
  match k with
  | Wait => 3 | ReadOut => 2 | ReadErr => 1 | Done => 0
  end.

Definition win_moves_left (s : sys) : nat :=
  (todo_weight (todo s) + (if alive s then 1 else 0)
   + List.length (in_stdout s) + List.length (in_stderr s)
   + win_pc_weight (pc s))%nat.

Fixpoint win_run_schedule (nSize : nat) (schedule : list bool) (s : sys)
  : option sys :=
  match schedule with
  | [] => Some s
  | who :: rest =>
      match (if who : bool then win_child_step nSize s else win_parent_step s) with
      | Some s' => win_run_schedule nSize rest s'
      | None => None
      end
  end.

(** What every reachable state of a run of [prog] satisfies. *)
Definition win_invariant (nSize : nat) (prog : list (stream * bytes)) (s : sys)
  : Prop :=
  (lStdout s ++ drop_CR (in_stdout s) ++ drop_CR (written Out (todo s))
   = drop_CR (written Out prog))%list /\
  (lStderr s ++ drop_CR (in_stderr s) ++ drop_CR (written Err (todo s))
   = drop_CR (written Err prog))%list /\
  (pc s = Wait ->
   (in_stdout s ++ written Out (todo s) = written Out prog)%list /\
   (in_stderr s ++ written Err (todo s) = written Err prog)%list) /\
  (List.length (in_stdout s) <= nSize)%nat /\
  (List.length (in_stderr s) <= nSize)%nat /\
  (alive s = false ->
   todo s = [] /\
   (List.length (written Out prog) <= nSize)%nat /\
   (List.length (written Err prog) <= nSize)%nat) /\
  (pc s <> Wait -> alive s = false) /\
  (pc s = ReadErr \/ pc s = Done -> in_stdout s = []) /\
  (pc s = Done -> in_stderr s = []).

End WaitThenRead.

(** * Properties *)

(** ** The result encoder *)

Lemma land_127 (s : Z) : Z.land s 127 = s mod 128.
Proof. change 127 with (Z.ones 7). now rewrite Z.land_ones by lia. Qed.

Lemma land_255 (s : Z) : Z.land s 255 = s mod 256.
Proof. change 255 with (Z.ones 8). now rewrite Z.land_ones by lia. Qed.

(** The macros of the GNU C library never classify a status word twice. *)
Lemma glibc_exclusive : macros_exclusive glibc.
Proof.
  intro stat. cbn -[Z.land Z.shiftr]. rewrite land_127, land_255.
  unfold signed_char.
  assert (Hlow : 0 <= stat mod 128 < 128) by (apply Z.mod_pos_bound; lia).
  split.
  - intro He. apply Z.eqb_eq in He. rewrite He. split; [reflexivity|].
    apply Z.eqb_neq. intro Hs.
    pose proof (Z.div_mod stat 256). pose proof (Z.div_mod stat 128). lia.
  - intro Hsig. apply Z.eqb_neq. intro Hs.
    assert (Hm : stat mod 128 = 127).
    { pose proof (Z.div_mod stat 256). pose proof (Z.div_mod stat 128). lia. }
    rewrite Hm in Hsig. discriminate Hsig.
Qed.

(** C1. Whatever termination status the status word presents, the exit
    code computed from the word is the spec's normalisation of that status:
    [Exited c] gives [c], [Signaled s] and [Stopped s] give [128 + s], and
    a word of no known kind gives [255]. *)
Theorem exit_code_normalized (m : wait_h) (stat : Z) (status : TerminationStatus) :
  macros_exclusive m ->
  presents m stat status ->
  exit_code_of m stat = encode status.
Proof.
  intros Hex Hp. destruct (Hex stat) as [He Hs]. unfold exit_code_of.
  destruct status as [c | s | s | ]; cbn in Hp |- *.
  - destruct Hp as [H1 H2]. now rewrite H1.
  - destruct Hp as [H1 H2].
    destruct (WIFEXITED m stat) eqn:E.
    + destruct (He eq_refl) as [Hc _]. congruence.
    + rewrite H1. now rewrite H2.
  - destruct Hp as [H1 H2].
    destruct (WIFEXITED m stat) eqn:E.
    + destruct (He eq_refl) as [_ Hc]. congruence.
    + destruct (WIFSIGNALED m stat) eqn:E'.
      * specialize (Hs eq_refl). congruence.
      * rewrite H1. now rewrite H2.
  - destruct Hp as (H1 & H2 & H3). now rewrite H1, H2, H3.
Qed.

Lemma exit_code_normalized_witness :
  presents glibc (W_EXITCODE 3 0) (Exited 3) /\
  exit_code_of glibc (W_EXITCODE 3 0) = encode (Exited 3).
Proof.
  assert (Hp : presents glibc (W_EXITCODE 3 0) (Exited 3))
    by (split; reflexivity).
  split; [exact Hp|].
  exact (exit_code_normalized glibc (W_EXITCODE 3 0) (Exited 3) glibc_exclusive Hp).
Defined.

(** A check of a decidable property over an initial segment of [Z]. *)
Lemma checked_below (P : Z -> bool) (n : nat) :
  forallb P (map Z.of_nat (seq 0 n)) = true ->
  forall z, 0 <= z < Z.of_nat n -> P z = true.
Proof.
  intros Hall z Hz. rewrite forallb_forall in Hall. apply Hall.
  apply in_map_iff. exists (Z.to_nat z). split; [lia|].
  apply in_seq. lia.
Qed.

(** The status words the kernel builds present what they were built for. *)
Lemma glibc_exited (c : Z) :
  0 <= c <= 255 -> presents glibc (W_EXITCODE c 0) (Exited c).
Proof.
  intro Hc.
  pose proof (checked_below
    (fun c => WIFEXITED glibc (W_EXITCODE c 0)
              && (WEXITSTATUS glibc (W_EXITCODE c 0) =? c)) 256 eq_refl c) as H.
  cbv beta in H. specialize (H ltac:(lia)).
  apply andb_true_iff in H. destruct H as [H1 H2].
  split; [exact H1 | now apply Z.eqb_eq].
Qed.

Lemma glibc_signaled (s : Z) (core : bool) :
  1 <= s <= 126 ->
  presents glibc (W_EXITCODE 0 s + (if core then WCOREFLAG else 0)) (Signaled s).
Proof.
  intro Hs.
  pose proof (checked_below
    (fun s => (s =? 0) ||
       forallb (fun core : bool =>
         let w := W_EXITCODE 0 s + (if core then WCOREFLAG else 0) in
         WIFSIGNALED glibc w && (WTERMSIG glibc w =? s)) [true; false])
    127 eq_refl s) as H.
  cbv beta in H. specialize (H ltac:(lia)).
  apply orb_true_iff in H. destruct H as [H | H]; [apply Z.eqb_eq in H; lia|].
  rewrite forallb_forall in H.
  specialize (H core ltac:(destruct core; cbn; auto)).
  apply andb_true_iff in H. destruct H as [H1 H2].
  split; [exact H1 | now apply Z.eqb_eq].
Qed.

Lemma glibc_stopped (s : Z) :
  0 <= s <= 255 -> presents glibc (W_STOPCODE s) (Stopped s).
Proof.
  intro Hs.
  pose proof (checked_below
    (fun s => WIFSTOPPED glibc (W_STOPCODE s)
              && (WSTOPSIG glibc (W_STOPCODE s) =? s)) 256 eq_refl s) as H.
  cbv beta in H. specialize (H ltac:(lia)).
  apply andb_true_iff in H. destruct H as [H1 H2].
  split; [exact H1 | now apply Z.eqb_eq].
Qed.

(** ** The command line *)

Lemma append_assoc (a b c : string) : (a ++ b) ++ c = a ++ (b ++ c).
Proof. induction a as [|x a IH]; cbn; [reflexivity | now rewrite IH]. Qed.

Lemma append_empty_r (a : string) : a ++ "" = a.
Proof. induction a as [|x a IH]; cbn; [reflexivity | now rewrite IH]. Qed.

Lemma append_args_join (lTmp : string) (lArgs : list string) :
  append_args lTmp lArgs = lTmp ++ join (map rendered_arg lArgs).
Proof.
  revert lTmp. induction lArgs as [|a rest IH]; intro lTmp; cbn.
  - now rewrite append_empty_r.
  - unfold rendered_arg at 1. destruct (quoted a); rewrite IH;
      now rewrite append_assoc.
Qed.

(** The command is always between double quotes, and every argument
    follows, after a space, as [rendered_arg] gives it. *)
Lemma command_line_posix (lCommand : string) (lArgs : list string) :
  command_line POSIX lCommand lArgs
  = dquote ++ lCommand ++ dquote ++ join (map rendered_arg lArgs).
Proof.
  unfold command_line. rewrite append_args_join. cbn [append].
  now rewrite !append_assoc.
Qed.

Lemma command_line_win32 (lCommand : string) (lArgs : list string) :
  command_line WIN32 lCommand lArgs
  = "cmd /C " ++ dquote ++ dquote ++ lCommand ++ dquote
    ++ join (map rendered_arg lArgs) ++ dquote.
Proof.
  unfold command_line. rewrite append_args_join.
  now rewrite !append_assoc.
Qed.

Lemma rfind_from_absent (c : ascii) (s : string) (i last : Z) :
  contains c s = false -> rfind_from c s i last = last.
Proof.
  revert i last. induction s as [|a s IH]; intros i last H; cbn in *.
  - reflexivity.
  - apply orb_false_iff in H. destruct H as [Ha Hs].
    rewrite Ha. now apply IH.
Qed.

Lemma rfind_from_present (c : ascii) (s : string) (i last : Z) :
  contains c s = true ->
  i <= rfind_from c s i last < i + Z.of_nat (String.length s).
Proof.
  revert i last. induction s as [|a s IH]; intros i last H; cbn [contains] in H.
  - discriminate.
  - cbn [rfind_from String.length].
    destruct (contains c s) eqn:Hs.
    + specialize (IH (i + 1) (if Ascii.eqb a c then i else last) eq_refl). lia.
    + rewrite rfind_from_absent by exact Hs.
      rewrite orb_false_r in H. rewrite H. lia.
Qed.

(** A value with no separator is never quoted. *)
Lemma no_separator_unquoted (arg : string) :
  has_path_separator arg = false -> quoted arg = false.
Proof.
  unfold has_path_separator, quoted, rfind. intro H.
  apply orb_false_iff in H. destruct H as [Hs Hb].
  now rewrite !rfind_from_absent by assumption.
Qed.

Ltac eval_pow2 :=
  change (2 ^ 64) with 18446744073709551616 in *;
  change (2 ^ 32) with 4294967296 in *;
  change (2 ^ 31) with 2147483648 in *;
  change (2 ^ 30) with 1073741824 in *.

Lemma int_of_small_sum (x y : Z) :
  0 <= x < 2 ^ 30 -> 0 <= y < 2 ^ 30 ->
  int_of_size_t (size_t_add x y) = x + y.
Proof.
  intros Hx Hy. unfold size_t_add, int_of_size_t, size_t_modulus, int_modulus.
  eval_pow2.
  rewrite (Z.mod_small (x + y) 18446744073709551616) by lia.
  rewrite Z.mod_small by lia.
  destruct (x + y <? _) eqn:E; [reflexivity|].
  apply Z.ltb_ge in E. lia.
Qed.

Lemma int_of_sum_npos (x : Z) :
  1 <= x < 2 ^ 30 ->
  int_of_size_t (size_t_add x npos) = x - 1.
Proof.
  intro Hx. unfold size_t_add, npos.
  replace (x + (size_t_modulus - 1)) with (x - 1 + 1 * size_t_modulus) by lia.
  rewrite Z_mod_plus_full.
  unfold int_of_size_t, size_t_modulus, int_modulus. eval_pow2.
  rewrite (Z.mod_small (x - 1) 18446744073709551616) by lia.
  rewrite Z.mod_small by lia.
  destruct (x - 1 <? _) eqn:E; [reflexivity|].
  apply Z.ltb_ge in E. lia.
Qed.

Lemma size_t_add_comm (x y : Z) : size_t_add x y = size_t_add y x.
Proof. unfold size_t_add. now rewrite Z.add_comm. Qed.

(** What [rfind] returns on a value with a first character. *)
Lemma rfind_cons (c h : ascii) (rest : string) :
  Z.of_nat (String.length rest) < 2 ^ 30 ->
  (contains c rest = true /\ 1 <= rfind (String h rest) c < 2 ^ 30) \/
  (contains c rest = false /\
   rfind (String h rest) c = if Ascii.eqb h c then 0 else npos).
Proof.
  intro Hlen. unfold rfind. cbn [rfind_from].
  destruct (contains c rest) eqn:E.
  - left. split; [reflexivity|].
    pose proof (rfind_from_present c rest (0 + 1)
                  (if Ascii.eqb h c then 0 else npos) E). eval_pow2. lia.
  - right. split; [reflexivity|]. now apply rfind_from_absent.
Qed.

(** What the test of the loop decides: a value is quoted exactly when a
    separator occurs in it after its first character. *)
Lemma quoted_iff_separator_in_tail (arg : string) :
  Z.of_nat (String.length arg) <= 2 ^ 30 ->
  quoted arg = has_path_separator (tail arg).
Proof.
  destruct arg as [|h rest]; [reflexivity|].
  intro Hlen. cbn [String.length tail] in *.
  assert (Hlen' : Z.of_nat (String.length rest) < 2 ^ 30) by lia.
  unfold quoted, has_path_separator.
  assert (H30 : 0 <= 0 < 2 ^ 30) by (eval_pow2; lia).
  destruct (rfind_cons backslash h rest Hlen') as [[Cx Bx] | [Cx Ex]],
           (rfind_cons slash h rest Hlen') as [[Cy By] | [Cy Ey]];
    rewrite Cx, Cy; cbn [orb].
  - rewrite int_of_small_sum by lia. apply Z.leb_le. lia.
  - rewrite Ey. destruct (Ascii.eqb h slash).
    + rewrite int_of_small_sum by (assumption || lia). apply Z.leb_le. lia.
    + rewrite int_of_sum_npos by lia. apply Z.leb_le. lia.
  - rewrite Ex, size_t_add_comm. destruct (Ascii.eqb h backslash).
    + rewrite int_of_small_sum by (assumption || lia). apply Z.leb_le. lia.
    + rewrite int_of_sum_npos by lia. apply Z.leb_le. lia.
  - rewrite Ex, Ey.
    destruct (Ascii.eqb h backslash) eqn:Eb, (Ascii.eqb h slash) eqn:Es;
      try reflexivity.
    apply Ascii.eqb_eq in Eb. subst h. discriminate Es.
Qed.

(** C6, at the value [/tmp]: it contains a path separator, and the loop
    appends it without quotes. *)
Theorem path_at_root_unquoted :
  has_path_separator "/tmp" = true /\
  quoted "/tmp" = false /\
  command_line POSIX "ls" ["/tmp"] = dquote ++ "ls" ++ dquote ++ " /tmp".
Proof. repeat split; reflexivity. Qed.

(** ** What the POSIX branch computes *)

Lemma until_NULL_terminated {A} (l : list A) (rest : list (option A)) :
  until_NULL (map Some l ++ None :: rest)%list = l.
Proof. induction l as [|a l IH]; cbn; [reflexivity | now rewrite IH]. Qed.

Lemma map_c_str_C_string (l : list string) :
  Forall C_string l -> map c_str l = l.
Proof.
  induction 1 as [|a l Ha _ IH]; cbn; [reflexivity|].
  unfold C_string in Ha. now rewrite Ha, IH.
Qed.

Ltac run_posix :=
  unfold evaluate_posix, exec_helper, pipe, fork, close, waitpid,
    drain_outfp, drain_errfp, bind, ret, throw, modify, gets.

(** Without the three pipes and the child, the invocation throws, no child
    has been launched and no handle has been released. *)
Lemma evaluate_posix_not_spawned (os : posix_os) (e : bool) (cmd : string)
  (args env : list string) :
  spawns os = false ->
  let r := evaluate_posix os e cmd args env posix_initial in
  fst r = Thrown (FailedToExecute (-1)) /\
  execs (snd r) = [] /\
  released (held (snd r)) = [].
Proof.
  unfold spawns. intro H. run_posix.
  destruct e;
    destruct (pipe_rc os p_stdin =? 0) eqn:E1; cbn; rewrite ?E1; cbn; auto;
    destruct (pipe_rc os p_stdout =? 0) eqn:E2; cbn; rewrite ?E2; cbn; auto;
    destruct (pipe_rc os p_stderr =? 0) eqn:E3; cbn; rewrite ?E3; cbn; auto;
    destruct (fork_rc os); cbn; auto; discriminate H.
Qed.

Lemma exec_helper_spawned (os : posix_os) (command : option string)
  (argv : list (option string)) (env : option (list (option string))) :
  spawns os = true ->
  exists pid : positive,
    exec_helper os false true true command argv env posix_initial
    = (Returned (Z.pos pid),
       let req := exec_helper_child (environ os) command argv env in
       let run := child_after_exec os req in
       {| held :=
            {| opened := [Fd p_stdin READ; Fd p_stdin WRITE; Fd p_stdout READ;
                          Fd p_stdout WRITE; Fd p_stderr READ; Fd p_stderr WRITE;
                          Child];
               released := [Fd p_stdin WRITE; Fd p_stdin READ;
                            Fd p_stdout WRITE; Fd p_stderr WRITE] |};
          execs := [req];
          from_stdout := run_stdout run;
          from_stderr := run_stderr run;
          zombie_stat := run_stat run |}).
Proof.
  unfold spawns. intro H.
  apply andb_true_iff in H. destruct H as [H Hf].
  apply andb_true_iff in H. destruct H as [H H3].
  apply andb_true_iff in H. destruct H as [H1 H2].
  destruct (fork_rc os) as [pid|] eqn:Hfork; [clear Hf | discriminate Hf].
  exists pid. run_posix.
  rewrite H1; cbn. rewrite H2; cbn. rewrite H3; cbn. rewrite Hfork.
  reflexivity.
Qed.

(** With them, the child is launched once, both pipes are read to the
    first non-positive [read], and the outcome depends on the last [close]
    and on [waitpid] only. *)
Lemma evaluate_posix_spawned (os : posix_os) (e : bool) (cmd : string)
  (args env : list string) :
  spawns os = true ->
  let req := posix_request os e cmd args env in
  let run := child_after_exec os req in
  let lStdout := fst (read_loop (run_stdout run) "") in
  let lStderr := fst (read_loop (run_stderr run) "") in
  let status := close_rc os (Fd p_stderr READ) in
  let r := evaluate_posix os e cmd args env posix_initial in
  fst r = (if status <? 0 then Thrown (FailedToCloseErr status)
           else if waitpid_ok os
                then Returned (create_result_object lStdout lStderr
                                 (exit_code_of glibc (run_stat run)))
                else Thrown FailedToWait) /\
  execs (snd r) = [req] /\
  opened (held (snd r))
  = [Fd p_stdin READ; Fd p_stdin WRITE; Fd p_stdout READ; Fd p_stdout WRITE;
     Fd p_stderr READ; Fd p_stderr WRITE; Child] /\
  released (held (snd r))
  = ([Fd p_stdin WRITE; Fd p_stdin READ; Fd p_stdout WRITE; Fd p_stderr WRITE;
      Fd p_stdout READ; Fd p_stderr READ]
     ++ if (status <? 0) || negb (waitpid_ok os) then [] else [Child])%list.
Proof.
  intros H req run lStdout lStderr status r.
  set (rhs :=
    (if status <? 0 then Thrown (FailedToCloseErr status)
     else if waitpid_ok os
          then Returned (create_result_object lStdout lStderr
                           (exit_code_of glibc (run_stat run)))
          else Thrown FailedToWait,
     {| held :=
          {| opened := [Fd p_stdin READ; Fd p_stdin WRITE;
                        Fd p_stdout READ; Fd p_stdout WRITE;
                        Fd p_stderr READ; Fd p_stderr WRITE; Child];
             released := ([Fd p_stdin WRITE; Fd p_stdin READ;
                           Fd p_stdout WRITE; Fd p_stderr WRITE;
                           Fd p_stdout READ; Fd p_stderr READ]
                          ++ if (status <? 0) || negb (waitpid_ok os)
                             then [] else [Child])%list |};
        execs := [req];
        from_stdout := snd (read_loop (run_stdout run) "");
        from_stderr := snd (read_loop (run_stderr run) "");
        zombie_stat := run_stat run |})).
  assert (Hstep : forall command argv envp,
    exec_helper_child (environ os) command argv envp = req ->
    bind (exec_helper os false true true command argv envp)
      (fun pid =>
         if pid =? -1 then throw (FailedToExecute pid) else
         bind drain_outfp (fun lStdout =>
         bind (close os (Fd p_stdout READ)) (fun _ =>
         bind drain_errfp (fun lStderr =>
         bind (close os (Fd p_stderr READ)) (fun status =>
         if status <? 0 then throw (FailedToCloseErr status) else
         bind (waitpid os pid) (fun w_stat =>
         let (w, stat) := w_stat : Z * Z in
         if w =? -1 then throw FailedToWait else
         ret (create_result_object lStdout lStderr
                (exit_code_of glibc stat))))))))
      posix_initial
    = rhs).
  { intros command argv envp Hreq.
    destruct (exec_helper_spawned os command argv envp H) as [pid Hpid].
    unfold bind at 1. rewrite Hpid. cbv zeta. rewrite Hreq.
    change (child_after_exec os req) with run.
    subst rhs lStdout lStderr. clearbody run.
    change (Z.pos pid =? -1) with false.
    cbv [bind drain_outfp drain_errfp close waitpid modify gets ret throw
         with_held release].
    cbn [held execs from_stdout from_stderr zombie_stat opened released].
    destruct (read_loop (run_stdout run) "") as [so ro].
    cbn [held execs from_stdout from_stderr zombie_stat opened released].
    destruct (read_loop (run_stderr run) "") as [se re].
    cbn [held execs from_stdout from_stderr zombie_stat opened released
         fst snd app].
    fold status.
    destruct (status <? 0); cbn [orb app]; [reflexivity|].
    destruct (waitpid_ok os); cbn [negb app]; [|reflexivity].
    cbn [held execs from_stdout from_stderr zombie_stat opened released
         fst snd app].
    change (Z.pos pid =? -1) with false. reflexivity. }
  assert (Hr : r = rhs).
  { subst r. unfold evaluate_posix. destruct e; apply Hstep; reflexivity. }
  rewrite Hr. subst rhs. cbn [fst snd held execs opened released]. auto.
Qed.

(** ** What the WIN32 branch computes *)

Ltac run_win32 :=
  cbv [evaluate_win32 run_process CreatePipe CloseHandle create_child_process
       lift_result bind ret throw modify gets win_with_held release acquire].

(** Without both pipes the invocation throws before any child exists. *)
Lemma evaluate_win32_no_pipe (os : win_os) (e : bool) (cmd : string)
  (args env : list string) :
  create_pipe_ok os lOutRead && create_pipe_ok os lErrRead = false ->
  let r := evaluate_win32 os e cmd args env win_initial in
  fst r = Thrown NoPipe /\ created (snd r) = [].
Proof.
  intro H. run_win32.
  destruct (create_pipe_ok os lOutRead); cbn; auto.
  destruct (create_pipe_ok os lErrRead); cbn; auto. discriminate H.
Qed.

(** When [CreateProcess] fails, the four pipe handles are closed and the
    last error is thrown. *)
Lemma evaluate_win32_no_process (os : win_os) (e : bool) (cmd : string)
  (args env : list string) :
  create_pipe_ok os lOutRead && create_pipe_ok os lErrRead = true ->
  create_process os (win_request cmd args) = None ->
  let r := evaluate_win32 os e cmd args env win_initial in
  fst r = Thrown (LastError 285 (create_process_error os)) /\
  created (snd r) = [] /\
  opened (win_held (snd r)) = [lOutRead; lStdOut; lErrRead; lStdErr] /\
  released (win_held (snd r)) = [lStdOut; lStdErr; lOutRead; lErrRead].
Proof.
  intros H Hc. apply andb_true_iff in H. destruct H as [H1 H2].
  unfold win_request in Hc. run_win32.
  generalize dependent (command_line WIN32 cmd args). intros line Hc.
  rewrite H1. cbn. rewrite H2. cbn.
  rewrite Hc. cbn. auto.
Qed.

(** When the child is created and its exit code is obtained, the two pipes
    are read in turn, and a result is returned only for exit code 0. *)
Lemma evaluate_win32_created (os : win_os) (e : bool) (cmd : string)
  (args env : list string) (run : win_run) :
  create_pipe_ok os lOutRead && create_pipe_ok os lErrRead = true ->
  create_process os (win_request cmd args) = Some run ->
  let r := evaluate_win32 os e cmd args env win_initial in
  created (snd r) = [win_request cmd args] /\
  (get_exit_code_ok os = true ->
   fst r =
   match read_child_output (win_stdout run) "" with
   | Thrown err => Thrown err
   | Returned lStdout =>
       match read_child_output (win_stderr run) "" with
       | Thrown err => Thrown err
       | Returned lStderr =>
           let code := int_of_DWORD (win_exit_code run) in
           if negb (code =? 0) then Thrown (FailedToExecute code)
           else Returned (create_result_object lStdout lStderr code)
       end
   end).
Proof.
  intros H Hc. apply andb_true_iff in H. destruct H as [H1 H2].
  unfold win_request in *. run_win32.
  generalize dependent (command_line WIN32 cmd args). intros line Hc.
  rewrite H1. cbn. rewrite H2. cbn.
  rewrite Hc. cbn.
  destruct (get_exit_code_ok os); cbn; [|split; [reflexivity | discriminate]].
  destruct (read_child_output (win_stdout run) ""); cbn; [|auto].
  destruct (read_child_output (win_stderr run) ""); cbn; [|auto].
  destruct (negb (int_of_DWORD (win_exit_code run) =? 0)); cbn; auto.
Qed.

(** ** How the child is launched *)

Lemma C_string_cons (a : ascii) (s : string) :
  C_string (String a s) <-> Ascii.eqb a NUL = false /\ C_string s.
Proof.
  unfold C_string. cbn. destruct (Ascii.eqb a NUL).
  - split; [discriminate | intros [H _]; discriminate H].
  - split; [intro H; injection H; auto | intros [_ H]; now rewrite H].
Qed.

Lemma C_string_append (a b : string) :
  C_string a -> C_string b -> C_string (a ++ b).
Proof.
  induction a as [|x a IH]; cbn; intros Ha Hb; [exact Hb|].
  apply C_string_cons in Ha. destruct Ha as [Hx Ha].
  apply C_string_cons. auto.
Qed.

Lemma C_string_rendered_arg (arg : string) :
  C_string arg -> C_string (rendered_arg arg).
Proof.
  intro H. unfold rendered_arg.
  destruct (quoted arg); repeat apply C_string_append; auto; reflexivity.
Qed.

Lemma C_string_join (l : list string) :
  Forall C_string l -> C_string (join l).
Proof.
  induction 1 as [|a l Ha _ IH]; cbn; [reflexivity|].
  now apply C_string_append.
Qed.

Lemma C_string_command_line (b : backend) (cmd : string) (args : list string) :
  C_string cmd -> Forall C_string args -> C_string (command_line b cmd args).
Proof.
  intros Hc Ha.
  assert (Hj : C_string (join (map rendered_arg args))).
  { apply C_string_join. induction Ha; cbn; constructor; auto.
    now apply C_string_rendered_arg. }
  destruct b; [rewrite command_line_posix | rewrite command_line_win32];
    repeat apply C_string_append; auto; reflexivity.
Qed.

(** On POSIX at most one child is launched, by the [exec] call of
    [posix_request]. *)
Lemma launches_posix (os : posix_os) (e : bool) (cmd : string)
  (args env : list string) :
  launches (Posix os) e cmd args env
  = if spawns os then [ByExec (posix_request os e cmd args env)] else [].
Proof.
  unfold launches. destruct (spawns os) eqn:H.
  - destruct (evaluate_posix_spawned os e cmd args env H) as (_ & He & _).
    now rewrite He.
  - destruct (evaluate_posix_not_spawned os e cmd args env H) as (_ & He & _).
    now rewrite He.
Qed.

(** On WIN32 at most one child is launched, by the [CreateProcess] call of
    [win_request], whatever the mode and the environment asked for. *)
Lemma launches_win32 (os : win_os) (e : bool) (cmd : string)
  (args env : list string) (l : launch) :
  In l (launches (Win32 os) e cmd args env) ->
  l = ByCreateProcess (win_request cmd args).
Proof.
  unfold launches.
  destruct (create_pipe_ok os lOutRead && create_pipe_ok os lErrRead) eqn:Hp.
  - destruct (create_process os (win_request cmd args)) as [run|] eqn:Hc.
    + destruct (evaluate_win32_created os e cmd args env run Hp Hc) as [He _].
      rewrite He. cbn. intros [H | []]. now symmetry.
    + destruct (evaluate_win32_no_process os e cmd args env Hp Hc) as (_ & He & _).
      rewrite He. intros [].
  - destruct (evaluate_win32_no_pipe os e cmd args env Hp) as [_ He].
    rewrite He. intros [].
Qed.

(** The [exec] call of program-args mode. *)
Lemma posix_request_program (os : posix_os) (cmd : string) (args env : list string) :
  posix_request os true cmd args env
  = {| exec_file := Some (c_str cmd);
       exec_searches_PATH := true;
       exec_argv := c_str cmd :: map c_str args;
       exec_environ := match env with
                       | [] => environ os
                       | _ :: _ => map c_str env
                       end |}.
Proof.
  unfold posix_request, exec_helper_child, argv_of, env_of, execvpe, execvp,
    strdup.
  destruct env as [|v env].
  - cbn [List.length Z.of_nat Z.ltb Z.compare hd until_NULL].
    f_equal. rewrite <- (map_map c_str (@Some string)).
    now rewrite until_NULL_terminated.
  - replace (0 <? Z.of_nat (List.length (v :: env))) with true
      by (symmetry; apply Z.ltb_lt; cbn [List.length]; lia).
    cbn [hd]. f_equal.
    + cbn [until_NULL]. f_equal. rewrite <- (map_map c_str (@Some string)).
      now rewrite until_NULL_terminated.
    + rewrite <- (map_map c_str (@Some string)).
      now rewrite until_NULL_terminated.
Qed.

(** The [exec] call of shell-string mode. *)
Lemma posix_request_shell (os : posix_os) (cmd : string) (args env : list string) :
  posix_request os false cmd args env
  = {| exec_file := Some "/bin/sh";
       exec_searches_PATH := false;
       exec_argv := ["sh"; "-c"; c_str (command_line POSIX cmd args)];
       exec_environ := environ os |}.
Proof. reflexivity. Qed.

(** C7 as stated fails on WIN32: in program-args mode the child is created
    from one command line, not from a vector; two different argument
    vectors even give the same launch. *)
Lemma program_args_not_a_vector_on_win32 :
  (exists l,
     In l (launches (Win32 (healthy_win32 (silent_exit 0))) true "prog" ["a"] []) /\
     ~ passes_vector l ["prog"; "a"]) /\
  launches (Win32 (healthy_win32 (silent_exit 0))) true "prog" ["a b"] []
  = launches (Win32 (healthy_win32 (silent_exit 0))) true "prog" ["a"; "b"] [].
Proof.
  split.
  - exists (ByCreateProcess (win_request "prog" ["a"])). split.
    + left. reflexivity.
    + intro H. exact H.
  - reflexivity.
Qed.

(** C7, amended. In program-args mode the POSIX backend launches the child
    by an [exec] call on the program itself with exactly the vector
    [program, args...]; the WIN32 backend hands the quoted command line to
    [cmd /C]. *)
Theorem program_args_launch (pf : platform) (cmd : string)
  (args env : list string) (l : launch) :
  C_string cmd -> Forall C_string args ->
  In l (launches pf true cmd args env) ->
  match pf with
  | Posix _ => passes_vector l (cmd :: args)
  | Win32 _ => runs_shell_on l (command_line POSIX cmd args)
  end.
Proof.
  intros Hc Ha Hl. destruct pf as [os | os].
  - rewrite launches_posix in Hl. destruct (spawns os); [|destruct Hl].
    destruct Hl as [Hl | []]. subst l. rewrite posix_request_program.
    cbn. rewrite Hc, (map_c_str_C_string args Ha). auto.
  - apply launches_win32 in Hl. subst l.
    unfold runs_shell_on, win_request. cbn [lpApplicationName lpCommandLine].
    split; [reflexivity|].
    rewrite (C_string_command_line WIN32 cmd args Hc Ha).
    rewrite command_line_win32, command_line_posix.
    now rewrite !append_assoc.
Qed.

Lemma program_args_launch_witness :
  passes_vector
    (ByExec (posix_request (healthy_posix (fun _ => ExecFails "No such file or directory"))
               true "/bin/echo" ["a b"; "$HOME"] []))
    ["/bin/echo"; "a b"; "$HOME"].
Proof.
  apply (program_args_launch
           (Posix (healthy_posix (fun _ => ExecFails "No such file or directory")))
           "/bin/echo" ["a b"; "$HOME"] []).
  - reflexivity.
  - repeat constructor.
  - left. reflexivity.
Defined.

(** The environment of the child in program-args mode. *)
Lemma child_environment_program (pf : platform) (cmd : string)
  (args env : list string) (l : launch) :
  In l (launches pf true cmd args env) ->
  child_environment pf l
  = match pf, env with
    | Posix _, _ :: _ => map c_str env
    | _, _ => parent_environment pf
    end.
Proof.
  intro Hl. destruct pf as [os | os].
  - rewrite launches_posix in Hl. destruct (spawns os); [|destruct Hl].
    destruct Hl as [Hl | []]. subst l. rewrite posix_request_program.
    destruct env; reflexivity.
  - apply launches_win32 in Hl. subst l. reflexivity.
Qed.

(** C8 as stated fails on WIN32: the environment asked for is not used,
    the child starts with the environment of the calling process. *)
Lemma env_not_replaced_on_win32 :
  exists l,
    In l (launches (Win32 (healthy_win32 (silent_exit 0))) true "prog" [] ["A=1"]) /\
    child_environment (Win32 (healthy_win32 (silent_exit 0))) l <> ["A=1"].
Proof.
  exists (ByCreateProcess (win_request "prog" [])). split.
  - left. reflexivity.
  - cbn. discriminate.
Qed.

(** C8, amended. In program-args mode with a non-empty [env], on the POSIX
    backend the child's environment is exactly the vector supplied, whatever
    the environment of the calling process; the WIN32 backend does not read
    [env] and the child starts with the environment of the calling
    process. *)
Theorem env_replaces_on_posix (pf : platform) (cmd : string)
  (args env : list string) (l : launch) :
  env <> [] -> Forall C_string env ->
  In l (launches pf true cmd args env) ->
  match pf with
  | Posix _ => child_environment pf l = env
  | Win32 _ => child_environment pf l = parent_environment pf
  end.
Proof.
  intros Hne He Hl. rewrite (child_environment_program pf cmd args env l Hl).
  destruct pf as [os | os]; [|reflexivity].
  destruct env as [|v env]; [congruence|].
  now apply map_c_str_C_string.
Qed.

Lemma env_replaces_on_posix_witness :
  child_environment (Posix (healthy_posix (fun _ => ExecRuns
      {| run_stdout := []; run_stderr := []; run_stat := 0 |})))
    (ByExec (posix_request (healthy_posix (fun _ => ExecRuns
      {| run_stdout := []; run_stderr := []; run_stat := 0 |}))
      true "/usr/bin/env" [] ["A=1"; "B=two"]))
  = ["A=1"; "B=two"].
Proof.
  apply (env_replaces_on_posix
           (Posix (healthy_posix (fun _ => ExecRuns
              {| run_stdout := []; run_stderr := []; run_stat := 0 |})))
           "/usr/bin/env" [] ["A=1"; "B=two"]).
  - discriminate.
  - repeat constructor.
  - left. reflexivity.
Defined.

(** C10. In program-args mode with an empty [env], the child starts with
    the environment of the calling process, on both backends. *)
Theorem empty_env_inherits (pf : platform) (cmd : string) (args : list string)
  (l : launch) :
  In l (launches pf true cmd args []) ->
  child_environment pf l = parent_environment pf.
Proof.
  intro Hl. rewrite (child_environment_program pf cmd args [] l Hl).
  destruct pf; reflexivity.
Qed.

Lemma empty_env_inherits_witness :
  child_environment (Posix (healthy_posix (fun _ => ExecRuns
      {| run_stdout := []; run_stderr := []; run_stat := 0 |})))
    (ByExec (posix_request (healthy_posix (fun _ => ExecRuns
      {| run_stdout := []; run_stderr := []; run_stat := 0 |}))
      true "/usr/bin/env" [] []))
  = ["PATH=/usr/bin:/bin"; "HOME=/root"].
Proof.
  apply (empty_env_inherits
           (Posix (healthy_posix (fun _ => ExecRuns
              {| run_stdout := []; run_stderr := []; run_stat := 0 |})))
           "/usr/bin/env" []).
  left. reflexivity.
Defined.

(** The replacement is engaged only by a non-empty [env]: a child whose
    environment differs from that of the calling process was given one. *)
Lemma replaced_env_was_supplied (pf : platform) (cmd : string)
  (args env : list string) (l : launch) :
  In l (launches pf true cmd args env) ->
  child_environment pf l <> parent_environment pf ->
  env <> [].
Proof.
  intros Hl Hd He. subst env. apply Hd.
  rewrite (child_environment_program pf cmd args [] l Hl).
  destruct pf; reflexivity.
Qed.

(** ** Spawn failures and exit codes *)

Lemma exit_code_of_exited (c : Z) :
  0 <= c <= 255 -> exit_code_of glibc (W_EXITCODE c 0) = c.
Proof.
  intro Hc. apply Z.eqb_eq.
  apply (checked_below (fun c => exit_code_of glibc (W_EXITCODE c 0) =? c) 256
           eq_refl c).
  lia.
Qed.

Lemma exit_code_of_aborted (core : bool) :
  exit_code_of glibc (W_EXITCODE 0 SIGABRT + (if core then WCOREFLAG else 0))
  = 134.
Proof. destruct core; reflexivity. Qed.

(** C2 as stated fails on POSIX: for a program that does not exist the
    invocation returns a result, with exit code 134 and the message of the
    child as [stderr]. *)
Lemma missing_program_returns_a_result :
  evaluate (Posix (healthy_posix (fun _ => ExecFails "No such file or directory")))
    true "/no/such/program" [] []
  = Returned {| exit_code := 134;
                stdout := "";
                stderr := "execl: No such file or directory" ++ newline |}.
Proof. reflexivity. Qed.

(** In shell-string mode the same missing program gives another result:
    the child executes [/bin/sh], which reports the missing command itself
    and exits with code 127. *)
Lemma missing_program_in_shell_mode :
  evaluate (Posix only_shell_posix) false "/no/such/program" [] []
  = Returned {| exit_code := 127;
                stdout := "";
                stderr := "sh: 1: /no/such/program: not found" ++ newline |}.
Proof. reflexivity. Qed.

(** C2, amended. On POSIX, an invocation naming a program that cannot be
    executed returns a result, not a failure, once the pipes and the child
    were created and the last [close] and [waitpid] succeed.  In
    program-args mode the [exec] call of the child, which names the
    program, fails: the result has exit code 134 (128 + SIGABRT), nothing
    on [stdout], and the [perror] line of the child as [stderr].  In
    shell-string mode the child executes [/bin/sh] with the command line,
    not the program: the result is the exit code, [stdout] and [stderr] of
    that run of the shell.  The failure to execute is thrown when, and only
    when, a pipe or the child could not be created. *)
Theorem missing_program_outcome (os : posix_os) (e : bool) (cmd : string)
  (args env : list string) (strerror : string) :
  cannot_execute os (c_str cmd) strerror ->
  0 <= close_rc os (Fd p_stderr READ) ->
  waitpid_ok os = true ->
  evaluate (Posix os) e cmd args env
  = if spawns os
    then Returned
           (if e
            then {| exit_code := 128 + SIGABRT;
                    stdout := "";
                    stderr := "execl: " ++ strerror ++ newline |}
            else
              let shell :=
                child_after_exec os
                  (execl (environ os) "/bin/sh"
                     ["sh"; "-c"; c_str (command_line POSIX cmd args)]) in
              {| exit_code := exit_code_of glibc (run_stat shell);
                 stdout := fst (read_loop (run_stdout shell) "");
                 stderr := fst (read_loop (run_stderr shell) "") |})
    else Thrown (FailedToExecute (-1)).
Proof.
  intros Hx Hclose Hwait. unfold evaluate.
  destruct (spawns os) eqn:Hs.
  - destruct (evaluate_posix_spawned os e cmd args env Hs) as (Hr & _).
    rewrite Hr.
    replace (close_rc os (Fd p_stderr READ) <? 0) with false
      by (symmetry; apply Z.ltb_ge; exact Hclose).
    rewrite Hwait. destruct e.
    + unfold child_after_exec.
      rewrite (Hx (posix_request os true cmd args env))
        by (rewrite posix_request_program; reflexivity).
      cbn [run_stdout run_stderr run_stat].
      rewrite exit_code_of_aborted. reflexivity.
    + rewrite posix_request_shell. reflexivity.
  - now destruct (evaluate_posix_not_spawned os e cmd args env Hs) as (Hr & _).
Qed.

Lemma missing_program_outcome_witness :
  evaluate (Posix only_shell_posix) true "/no/such/program" ["-x"] []
  = Returned {| exit_code := 134;
                stdout := "";
                stderr := "execl: No such file or directory" ++ newline |}.
Proof.
  apply (missing_program_outcome only_shell_posix true "/no/such/program"
           ["-x"] [] "No such file or directory").
  - intros req H. cbn in H. cbn. rewrite H. reflexivity.
  - cbn. lia.
  - reflexivity.
Defined.

(** C4 as stated fails on WIN32: a child that exits normally with code 1
    makes the invocation throw; no result carries the code. *)
Lemma nonzero_exit_is_thrown_on_win32 :
  exits_normally (Win32 (healthy_win32 (silent_exit 1))) true "prog" [] [] 1 /\
  evaluate (Win32 (healthy_win32 (silent_exit 1))) true "prog" [] []
  = Thrown (FailedToExecute 1) /\
  ~ (exists r,
       evaluate (Win32 (healthy_win32 (silent_exit 1))) true "prog" [] []
       = Returned r /\ exit_code r = 1).
Proof.
  split; [|split].
  - cbn. split; [reflexivity|]. split; [|reflexivity].
    exists (silent_exit 1). repeat split; try reflexivity.
    + exists "". reflexivity.
    + exists "". reflexivity.
  - reflexivity.
  - intros [r [H _]]. discriminate H.
Qed.

(** C4, amended. A child that was created and exits normally with code
    [c], with neither drain nor wait failing, gives on POSIX a result whose
    exit code is [c], zero or not; on WIN32 it gives a result only for
    [c = 0], and for any other code the invocation throws the failure to
    execute, carrying the code. *)
Theorem normal_exit_code_delivered (pf : platform) (e : bool) (cmd : string)
  (args env : list string) (c : Z) :
  0 <= c <= 255 ->
  exits_normally pf e cmd args env c ->
  match pf with
  | Posix _ =>
      exists r, evaluate pf e cmd args env = Returned r /\ exit_code r = c
  | Win32 _ =>
      if c =? 0
      then exists r, evaluate pf e cmd args env = Returned r /\ exit_code r = 0
      else evaluate pf e cmd args env = Thrown (FailedToExecute c)
  end.
Proof.
  intros Hc Hn. destruct pf as [os | os]; cbn [exits_normally] in Hn.
  - destruct Hn as (Hs & (run & Hx & Hstat) & Hclose & Hwait).
    destruct (evaluate_posix_spawned os e cmd args env Hs) as (Hr & _).
    unfold evaluate. rewrite Hr. unfold child_after_exec. rewrite Hx.
    replace (close_rc os (Fd p_stderr READ) <? 0) with false
      by (symmetry; apply Z.ltb_ge; exact Hclose).
    rewrite Hwait, Hstat, (exit_code_of_exited c Hc).
    eexists. split; reflexivity.
  - destruct Hn as (Hp & (run & Hx & Hcode & (out & Ho) & (err & He)) & Hg).
    destruct (evaluate_win32_created os e cmd args env run Hp Hx) as [_ Hr].
    unfold evaluate. rewrite (Hr Hg), Ho, He, Hcode. cbv zeta.
    assert (Hi : int_of_DWORD c = c).
    { unfold int_of_DWORD, int_of_size_t, int_modulus. eval_pow2.
      rewrite Z.mod_small by lia.
      destruct (c <? 2147483648) eqn:E; [reflexivity|].
      apply Z.ltb_ge in E. lia. }
    rewrite Hi. destruct (c =? 0) eqn:E; cbn [negb].
    + apply Z.eqb_eq in E. eexists. split; [reflexivity | exact E].
    + reflexivity.
Qed.

Lemma normal_exit_code_delivered_witness :
  exists r,
    evaluate (Posix (healthy_posix (fun _ => ExecRuns
      {| run_stdout := [ReadData "out"]; run_stderr := [ReadData "err"];
         run_stat := W_EXITCODE 3 0 |}))) false "exit 3" [] []
    = Returned r /\ exit_code r = 3.
Proof.
  apply (normal_exit_code_delivered
           (Posix (healthy_posix (fun _ => ExecRuns
              {| run_stdout := [ReadData "out"]; run_stderr := [ReadData "err"];
                 run_stat := W_EXITCODE 3 0 |}))) false "exit 3" [] [] 3).
  - lia.
  - cbn. split; [reflexivity|]. split; [|split; [lia | reflexivity]].
    eexists. split; reflexivity.
Defined.

(** ** Handles *)

(** C5, where [fork] fails after the three pipes were created:
    [exec_helper] returns -1, the invocation throws, and the six descriptors
    of the pipes are still open; none was closed. *)
Theorem fork_failure_leaks_pipes :
  let os := posix_os_with (fun _ => 0) None
              (fun _ => ExecFails "No such file or directory") 0 true in
  let after := posix_handles_after os true "/bin/true" [] [] in
  evaluate (Posix os) true "/bin/true" [] [] = Thrown (FailedToExecute (-1)) /\
  leaked posix_handle_eqb after
  = [Fd p_stdin READ; Fd p_stdin WRITE; Fd p_stdout READ; Fd p_stdout WRITE;
     Fd p_stderr READ; Fd p_stderr WRITE] /\
  all_released_once posix_handle_eqb after = false.
Proof. repeat split; reflexivity. Qed.

(** The same when the second [pipe] call fails: the two descriptors of the
    first pipe stay open. *)
Lemma pipe_failure_leaks_first_pipe :
  let os := posix_os_with (fun p => if pipe_name_eqb p p_stdout then -1 else 0)
              (Some 4242%positive)
              (fun _ => ExecFails "No such file or directory") 0 true in
  leaked posix_handle_eqb (posix_handles_after os true "/bin/true" [] [])
  = [Fd p_stdin READ; Fd p_stdin WRITE].
Proof. reflexivity. Qed.

(** Whenever [exec_helper] fails, nothing that was created is released. *)
Lemma spawn_failure_releases_nothing (os : posix_os) (e : bool) (cmd : string)
  (args env : list string) :
  spawns os = false ->
  released (posix_handles_after os e cmd args env) = [].
Proof.
  intro H. unfold posix_handles_after.
  now destruct (evaluate_posix_not_spawned os e cmd args env H) as (_ & _ & Hr).
Qed.

(** When the invocation returns a result, the six descriptors and the
    child have each been released exactly once. *)
Lemma posix_result_releases_all (os : posix_os) (e : bool) (cmd : string)
  (args env : list string) (r : ExecutionResult) :
  evaluate (Posix os) e cmd args env = Returned r ->
  all_released_once posix_handle_eqb (posix_handles_after os e cmd args env)
  = true.
Proof.
  unfold evaluate, posix_handles_after, all_released_once, times_released.
  intro Hr. destruct (spawns os) eqn:Hs.
  - destruct (evaluate_posix_spawned os e cmd args env Hs) as (Ho & _ & Hop & Hrel).
    rewrite Hop, Hrel. rewrite Ho in Hr.
    destruct (close_rc os (Fd p_stderr READ) <? 0); [discriminate Hr|].
    destruct (waitpid_ok os); [reflexivity | discriminate Hr].
  - destruct (evaluate_posix_not_spawned os e cmd args env Hs) as (Ho & _).
    rewrite Ho in Hr. discriminate Hr.
Qed.

(** When the last [close] or [waitpid] fails, the child is never reaped. *)
Lemma wait_failure_leaves_child (os : posix_os) (e : bool) (cmd : string)
  (args env : list string) :
  spawns os = true ->
  (close_rc os (Fd p_stderr READ) <? 0) || negb (waitpid_ok os) = true ->
  leaked posix_handle_eqb (posix_handles_after os e cmd args env) = [Child].
Proof.
  intros Hs Hf. unfold posix_handles_after, leaked, times_released.
  destruct (evaluate_posix_spawned os e cmd args env Hs) as (_ & _ & Hop & Hrel).
  rewrite Hop, Hrel, Hf. reflexivity.
Qed.

(** The sibling path that does release: when [CreateProcess] fails, the
    four pipe handles are each closed once before the error is thrown. *)
Lemma win32_no_process_releases_all (os : win_os) (e : bool) (cmd : string)
  (args env : list string) :
  create_pipe_ok os lOutRead && create_pipe_ok os lErrRead = true ->
  create_process os (win_request cmd args) = None ->
  all_released_once win_handle_eqb (win_handles_after os e cmd args env) = true.
Proof.
  intros Hp Hc. unfold win_handles_after, all_released_once, times_released.
  destruct (evaluate_win32_no_process os e cmd args env Hp Hc) as (_ & _ & Ho & Hr).
  now rewrite Ho, Hr.
Qed.

(** ** Read errors *)

(** C9, where the second [read] on [outfp] fails: the loop ends as at the
    end of the stream, nothing is thrown, and the bytes read before the
    failure are returned as [stdout]. *)
Theorem read_error_returns_partial_output :
  evaluate
    (Posix (healthy_posix (fun _ => ExecRuns
       {| run_stdout := [ReadData "partial"; ReadFails; ReadData " output"];
          run_stderr := [];
          run_stat := W_EXITCODE 0 0 |})))
    true "/bin/cat" ["file"] []
  = Returned {| exit_code := 0; stdout := "partial"; stderr := "" |}.
Proof. reflexivity. Qed.

(** In general the read loop does not tell a failed [read] from the end of
    the stream. *)
Lemma read_loop_failure_as_end (before after : list read_result) (stream : string) :
  fst (read_loop (before ++ ReadFails :: after)%list stream)
  = fst (read_loop before stream).
Proof.
  revert stream. induction before as [|r before IH]; intro stream; cbn.
  - reflexivity.
  - destruct (0 <? read_length r); [apply IH | reflexivity].
Qed.

(** The sibling path that does throw: on WIN32 a [ReadFile] that fails with
    anything but a broken pipe ends the invocation with the last error, as
    a drain failure, whatever was read before. *)
Lemma win32_read_error_is_thrown (before after : list win_read) (code : Z)
  (aTargetStream : string) :
  Forall (fun r => read_ok r = true /\ read_bytes r <> "") before ->
  code <> ERROR_BROKEN_PIPE ->
  read_child_output
    (before ++ {| read_ok := false; read_bytes := ""; read_last_error := code |}
            :: after)%list aTargetStream
  = Thrown (LastError 137 code) /\
  failure_of (LastError 137 code) = DrainFailure.
Proof.
  intros Hb Hc. split; [|reflexivity].
  revert aTargetStream. induction Hb as [|r before [Hok Hne] _ IH];
    intro aTargetStream; cbn.
  - apply Z.eqb_neq in Hc. now rewrite Hc.
  - rewrite Hok. destruct (read_bytes r) as [|a s]; [congruence|].
    cbn. apply IH.
Qed.

(** The same failure at the level of the invocation. *)
Lemma win32_read_error_discards_output :
  evaluate
    (Win32 (healthy_win32
       {| win_stdout := [ {| read_ok := true; read_bytes := "partial";
                             read_last_error := 0 |};
                          {| read_ok := false; read_bytes := "";
                             read_last_error := 5 |} ];
          win_stderr := [];
          win_exit_code := 0 |}))
    true "type" ["file"] []
  = Thrown (LastError 137 5).
Proof. reflexivity. Qed.

(** ** The two drains against a writing child *)

Import Interleaving.

Section DrainSchedule.
Local Open Scope list_scope.
Local Open Scope nat_scope.

Variable c : config.

Lemma written_cons (p q : stream) (data : bytes) (rest : list (stream * bytes)) :
  written p ((q, data) :: rest)
  = match p, q with
    | Out, Out | Err, Err => data ++ written p rest
    | _, _ => written p rest
    end.
Proof. reflexivity. Qed.



Hypothesis capacity_positive : 0 < capacity c.
Hypothesis PATH_MAX_positive : 0 < PATH_MAX c.

Variable prog : list (stream * bytes).

Lemma invariant_start : invariant prog (start prog).
Proof.
  unfold invariant, start. cbn. repeat split; auto; try congruence;
      try (intros [E | E]; discriminate E).
Qed.

Lemma min_zero_empty (l : bytes) :
  Nat.ltb 0 (Nat.min (PATH_MAX c) (List.length l)) = false -> l = [].
Proof.
  intro H. apply Nat.ltb_ge in H. destruct l; [reflexivity|].
  cbn [List.length] in H. lia.
Qed.

Lemma written_moved (a b d w : bytes) (n : nat) :
  a ++ (b ++ firstn n d) ++ skipn n d ++ w = a ++ b ++ d ++ w.
Proof.
  rewrite <- app_assoc. do 2 f_equal. now rewrite app_assoc, firstn_skipn.
Qed.

Lemma read_moved (a q w : bytes) (n : nat) :
  (a ++ firstn n q) ++ skipn n q ++ w = a ++ q ++ w.
Proof.
  rewrite <- app_assoc. f_equal. now rewrite app_assoc, firstn_skipn.
Qed.

Lemma invariant_child (s s' : sys) :
  invariant prog s -> child_step c s = Some s' -> invariant prog s'.
Proof.
  intros (I1 & I2 & I3 & I4 & I5 & I6) H. unfold child_step in H.
  destruct (alive s) eqn:Ha; [|discriminate H].
  assert (Hpc : pc s = ReadOut).
  { destruct (pc s) eqn:E; [reflexivity| | |];
      (assert (Hn : pc s <> ReadOut) by congruence;
       rewrite E in Hn; destruct (I3 Hn); discriminate). }
  destruct (todo s) as [|[p data] rest] eqn:Ht.
  - injection H as <-. unfold invariant. cbn. rewrite Hpc.
    repeat split; auto; try congruence;
      try (intros [E | E]; discriminate E).
  - destruct data as [|b data].
    + injection H as <-. unfold invariant. cbn. rewrite Hpc.
      rewrite written_cons in I1, I2.
      repeat split; auto; try congruence;
      try (intros [E | E]; discriminate E).
      * destruct p; exact I1.
      * destruct p; exact I2.
    + unfold reader_open in H. rewrite Hpc in H.
      replace (negb match p with Out => true | Err => true end) with false in H
        by (destruct p; reflexivity).
      destruct (Nat.eqb _ 0); [discriminate H|].
      injection H as <-. unfold invariant.
      set (n := Nat.min _ _).
      cbn [todo alive in_stdout in_stderr pc lStdout lStderr push set_child].
      rewrite Hpc. rewrite !written_cons. rewrite written_cons in I1, I2.
      repeat split; auto; try congruence;
      try (intros [E | E]; discriminate E).
      * destruct p; [|exact I1]. rewrite <- I1. apply written_moved.
      * destruct p; [exact I2|]. rewrite <- I2. apply written_moved.
Qed.

Lemma invariant_parent (s s' : sys) :
  invariant prog s -> parent_step c s = Some s' -> invariant prog s'.
Proof.
  intros (I1 & I2 & I3 & I4 & I5 & I6) H. unfold parent_step in H.
  destruct (pc s) eqn:Hpc.
  - set (n := Nat.min (PATH_MAX c) (List.length (in_stdout s))) in *.
    destruct (Nat.ltb 0 n) eqn:Hn.
    + assert (Hs : s' = set_parent (skipn n (in_stdout s)) (in_stderr s) ReadOut
                         (lStdout s ++ firstn n (in_stdout s)) (lStderr s) s).
      { destruct (in_stdout s); [destruct (alive s); [discriminate H|]|];
          now injection H. }
      subst s'. unfold invariant. cbn.
      repeat split; auto; try congruence;
      try (intros [E | E]; discriminate E).
      * rewrite <- I1. apply read_moved.
    + pose proof (min_zero_empty _ Hn) as He. rewrite He in H.
      destruct (alive s) eqn:Ha; [discriminate H|].
      injection H as <-. unfold invariant. cbn. rewrite He in *.
      repeat split; auto; try congruence;
      try (intros [E | E]; discriminate E).
    - destruct (I3 ltac:(discriminate)) as [Ha He].
    set (n := Nat.min (PATH_MAX c) (List.length (in_stderr s))) in *.
    destruct (Nat.ltb 0 n) eqn:Hn.
    + assert (Hs : s' = set_parent (in_stdout s) (skipn n (in_stderr s)) ReadErr
                         (lStdout s) (lStderr s ++ firstn n (in_stderr s)) s).
      { destruct (in_stderr s); [destruct (alive s); [discriminate H|]|];
          now injection H. }
      subst s'. unfold invariant. cbn.
      repeat split; auto; try congruence;
      try (intros [E | E]; discriminate E).
      * rewrite <- I2. apply read_moved.
    + pose proof (min_zero_empty _ Hn) as He'. rewrite He' in H.
      rewrite Ha in H. injection H as <-. unfold invariant. cbn. rewrite He' in *.
      repeat split; auto; try congruence;
      try (intros [E | E]; discriminate E).
  - destruct (I3 ltac:(discriminate)) as [Ha He].
    rewrite Ha in H. injection H as <-. unfold invariant. cbn.
    repeat split; auto; try congruence;
      try (intros [E | E]; discriminate E).
  - discriminate H.
Qed.

Lemma invariant_steps (n : nat) (s : sys) :
  steps c n (start prog) s -> invariant prog s.
Proof.
  intro H. remember (start prog) as s0 eqn:E.
  induction H as [s | n s s' s'' _ IH Hstep].
  - subst s. apply invariant_start.
  - specialize (IH E). destruct Hstep as [a b Hc | a b Hp].
    + now apply (invariant_child a b).
    + now apply (invariant_parent a b).
Qed.




Lemma steps_one (s s' : sys) : step c s s' -> steps c 1 s s'.
Proof. intro H. exact (steps_S c 0 s s s' (steps_O c s) H). Qed.

Lemma steps_front (n : nat) (s s' s'' : sys) :
  step c s s' -> steps c n s' s'' -> steps c (S n) s s''.
Proof.
  intros H1 H2. induction H2 as [t | n t t' t'' _ IH Hstep].
  - now apply steps_one.
  - exact (steps_S c (S n) s t' t'' (IH H1) Hstep).
Qed.

Lemma run_schedule_steps (schedule : list bool) (s s' : sys) :
  run_schedule c schedule s = Some s' ->
  steps c (List.length schedule) s s'.
Proof.
  revert s. induction schedule as [|who rest IH]; intros s H; cbn in H.
  - injection H as <-. constructor.
  - destruct who.
    + destruct (child_step c s) as [t|] eqn:E; [|discriminate H].
      apply (steps_front _ s t s'); [now apply step_child | now apply IH].
    + destruct (parent_step c s) as [t|] eqn:E; [|discriminate H].
      apply (steps_front _ s t s'); [now apply step_parent | now apply IH].
Qed.

End DrainSchedule.

Section DrainTheorems.
Local Open Scope list_scope.
Local Open Scope nat_scope.








End DrainTheorems.

(** * Further properties of the module *)

(** ** The command line, continued *)

Lemma contains_append (c : ascii) (a b : string) :
  contains c (a ++ b) = contains c a || contains c b.
Proof.
  induction a as [|x a IH]; cbn; [reflexivity|].
  now rewrite IH, orb_assoc.
Qed.

Lemma has_path_separator_append (a b : string) :
  has_path_separator (a ++ b) = has_path_separator a || has_path_separator b.
Proof.
  unfold has_path_separator. rewrite !contains_append.
  destruct (contains slash a), (contains slash b), (contains backslash a),
    (contains backslash b); reflexivity.
Qed.

Lemma join_app (l1 l2 : list string) : join (l1 ++ l2)%list = join l1 ++ join l2.
Proof.
  unfold join. induction l1 as [|a l1 IH]; cbn; [reflexivity|].
  now rewrite IH, append_assoc.
Qed.

(** X1. The test of the loop quotes an argument exactly when a forward or
    a back slash occurs in it after its first character. *)
Theorem argument_quoted_iff (arg : string) :
  Z.of_nat (String.length arg) <= 2 ^ 30 ->
  (quoted arg = true <-> has_path_separator (tail arg) = true).
Proof.
  intro Hlen. rewrite (quoted_iff_separator_in_tail arg Hlen). reflexivity.
Qed.

Lemma argument_quoted_iff_witness :
  quoted "src/main.c" = true <-> has_path_separator (tail "src/main.c") = true.
Proof.
  apply (argument_quoted_iff "src/main.c"). cbn. lia.
Defined.

(** X2. The line is the command between double quotes followed, for each
    argument in order, by a space and the argument, itself between double
    quotes when the test says so; the WIN32 line is that same line after
    [cmd /C] and between one more pair of double quotes. *)
Theorem command_line_layout (cmd : string) (args : list string) :
  command_line POSIX cmd args
  = dquote ++ cmd ++ dquote
    ++ join (map (fun arg =>
                    " " ++ (if quoted arg then dquote ++ arg ++ dquote else arg))
               args) /\
  command_line WIN32 cmd args
  = "cmd /C " ++ dquote ++ command_line POSIX cmd args ++ dquote.
Proof.
  split.
  - rewrite command_line_posix. do 3 f_equal. f_equal.
    apply map_ext. intro arg. unfold rendered_arg.
    destruct (quoted arg); reflexivity.
  - rewrite command_line_win32, command_line_posix.
    now rewrite !append_assoc.
Qed.

(** X3. Nothing is escaped: two neighbouring arguments without a path
    separator give the same line as the one argument made of the two with a
    space between them, so the line does not keep the argument boundaries. *)
Theorem unquoted_arguments_merge (b : backend) (cmd a1 a2 : string)
  (before after : list string) :
  has_path_separator a1 = false -> has_path_separator a2 = false ->
  command_line b cmd (before ++ a1 :: a2 :: after)%list
  = command_line b cmd (before ++ (a1 ++ " " ++ a2)%string :: after)%list.
Proof.
  intros H1 H2.
  assert (H12 : has_path_separator (a1 ++ " " ++ a2) = false).
  { rewrite !has_path_separator_append, H1, H2. reflexivity. }
  assert (Hj : join (map rendered_arg (before ++ a1 :: a2 :: after)%list)
               = join (map rendered_arg (before ++ (a1 ++ " " ++ a2)%string :: after)%list)).
  { rewrite !map_app, !join_app. f_equal. cbn [map join fold_right].
    unfold rendered_arg.
    rewrite (no_separator_unquoted a1 H1), (no_separator_unquoted a2 H2),
      (no_separator_unquoted _ H12).
    now rewrite !append_assoc. }
  destruct b.
  - now rewrite !command_line_posix, Hj.
  - now rewrite !command_line_win32, Hj.
Qed.

Lemma unquoted_arguments_merge_witness :
  command_line POSIX "touch" ["a"; "b"] = command_line POSIX "touch" ["a b"].
Proof.
  apply (unquoted_arguments_merge POSIX "touch" "a" "b" [] []); reflexivity.
Defined.

(** ** The result encoder, continued *)

(** X4. The exit code does not tell a child that exited with code
    [128 + n] from a child that was killed, or stopped, by signal [n]. *)
Theorem exit_and_signal_conflated (m : wait_h) (s1 s2 n : Z) :
  macros_exclusive m ->
  presents m s1 (Exited (128 + n)) ->
  presents m s2 (Signaled n) \/ presents m s2 (Stopped n) ->
  exit_code_of m s1 = exit_code_of m s2.
Proof.
  intros Hex [He1 Hc1] H2. unfold exit_code_of. rewrite He1, Hc1.
  destruct (Hex s2) as [Hx Hs].
  destruct H2 as [[Hsig Ht] | [Hstop Ht]].
  - destruct (WIFEXITED m s2) eqn:E.
    + destruct (Hx eq_refl) as [Hc _]. congruence.
    + now rewrite Hsig, Ht.
  - destruct (WIFEXITED m s2) eqn:E.
    + destruct (Hx eq_refl) as [_ Hc]. congruence.
    + destruct (WIFSIGNALED m s2) eqn:E'.
      * specialize (Hs eq_refl). congruence.
      * now rewrite Hstop, Ht.
Qed.

Lemma exit_and_signal_conflated_witness :
  exit_code_of glibc (W_EXITCODE 134 0) = exit_code_of glibc (W_EXITCODE 0 SIGABRT).
Proof.
  apply (exit_and_signal_conflated glibc (W_EXITCODE 134 0) (W_EXITCODE 0 SIGABRT) 6).
  - exact glibc_exclusive.
  - split; reflexivity.
  - left. split; reflexivity.
Defined.

Lemma high_byte_range (s : Z) : 0 <= Z.shiftr (Z.land s 65280) 8 <= 255.
Proof.
  rewrite Z.shiftr_land. change (Z.shiftr 65280 8) with 255.
  rewrite land_255.
  pose proof (Z.mod_pos_bound (Z.shiftr s 8) 256 ltac:(lia)). lia.
Qed.

(** X5. With the macros of the GNU C library the exit code is never
    negative and never above 383; it is at most 255 unless the status word
    is that of a stopped child. *)
Theorem exit_code_range (stat : Z) :
  0 <= exit_code_of glibc stat <= 383 /\
  (WIFSTOPPED glibc stat = false -> exit_code_of glibc stat <= 255).
Proof.
  unfold exit_code_of.
  cbn [WIFEXITED WEXITSTATUS WIFSIGNALED WTERMSIG WIFSTOPPED WSTOPSIG glibc].
  pose proof (high_byte_range stat) as Hh.
  assert (Hl : 0 <= Z.land stat 127 <= 127).
  { rewrite land_127. pose proof (Z.mod_pos_bound stat 128 ltac:(lia)). lia. }
  destruct (Z.land stat 127 =? 0); [lia|].
  destruct (0 <? _); [lia|].
  destruct (Z.land stat 255 =? 127); [split; [lia | discriminate]|].
  lia.
Qed.

(** ** The POSIX backend, continued *)

(** X6. Whatever ends the caller of [exec_helper] asks for, once the child
    exists the calling process is left with exactly those ends and the
    child: every other descriptor of the three pipes has been closed, and
    none has been closed twice. *)
Theorem exec_helper_leaves_requested_ends (os : posix_os) (infp outfp errfp : bool)
  (command : option string) (argv : list (option string))
  (env : option (list (option string))) :
  spawns os = true ->
  let after :=
    held (snd (exec_helper os infp outfp errfp command argv env posix_initial)) in
  leaked posix_handle_eqb after
  = ((if infp then [Fd p_stdin WRITE] else [])
     ++ (if outfp then [Fd p_stdout READ] else [])
     ++ (if errfp then [Fd p_stderr READ] else [])
     ++ [Child])%list /\
  forall h, (times_released posix_handle_eqb after h <= 1)%nat.
Proof.
  unfold spawns. intro H.
  apply andb_true_iff in H. destruct H as [H Hf].
  apply andb_true_iff in H. destruct H as [H H3].
  apply andb_true_iff in H. destruct H as [H1 H2].
  destruct (fork_rc os) as [pid|] eqn:Hfork; [clear Hf | discriminate Hf].
  run_posix.
  rewrite H1; cbn. rewrite H2; cbn. rewrite H3; cbn. rewrite Hfork.
  destruct infp, outfp, errfp; cbn; (split; [reflexivity|]);
    intros [[] []|]; cbn; lia.
Qed.

Lemma exec_helper_leaves_requested_ends_witness :
  leaked posix_handle_eqb
    (held (snd (exec_helper
                  (healthy_posix (fun _ => ExecFails "No such file or directory"))
                  true false true None [Some "/bin/cat"; None] None
                  posix_initial)))
  = [Fd p_stdin WRITE; Fd p_stderr READ; Child].
Proof.
  apply (exec_helper_leaves_requested_ends
           (healthy_posix (fun _ => ExecFails "No such file or directory"))
           true false true None [Some "/bin/cat"; None] None).
  reflexivity.
Defined.

Lemma read_loop_all (reads : list read_result) (stream : string) :
  Forall (fun r => 0 < read_length r) reads ->
  read_loop reads stream = (stream ++ delivered reads, []).
Proof.
  intro H. revert stream. unfold delivered, join.
  induction H as [|r reads Hr _ IH]; intro stream; cbn.
  - now rewrite append_empty_r.
  - replace (0 <? read_length r) with true by (symmetry; now apply Z.ltb_lt).
    rewrite IH. now rewrite append_assoc.
Qed.

(** X7. When the child runs, every [read] on either pipe delivers bytes
    until the end of the stream, and the last [close] and [waitpid]
    succeed, the result carries all the bytes of each pipe, in order and
    whatever the sizes of the reads, and the exit code decoded from the
    status word. *)
Theorem posix_output_round_trip (os : posix_os) (e : bool) (cmd : string)
  (args env : list string) (run : child_run) :
  spawns os = true ->
  os_exec os (posix_request os e cmd args env) = ExecRuns run ->
  Forall (fun r => 0 < read_length r) (run_stdout run) ->
  Forall (fun r => 0 < read_length r) (run_stderr run) ->
  0 <= close_rc os (Fd p_stderr READ) ->
  waitpid_ok os = true ->
  evaluate (Posix os) e cmd args env
  = Returned {| exit_code := exit_code_of glibc (run_stat run);
                stdout := delivered (run_stdout run);
                stderr := delivered (run_stderr run) |}.
Proof.
  intros Hs Hx Ho He Hclose Hwait. unfold evaluate.
  destruct (evaluate_posix_spawned os e cmd args env Hs) as (Hr & _).
  rewrite Hr. unfold child_after_exec. rewrite Hx.
  rewrite (read_loop_all _ "" Ho), (read_loop_all _ "" He).
  replace (close_rc os (Fd p_stderr READ) <? 0) with false
    by (symmetry; apply Z.ltb_ge; exact Hclose).
  rewrite Hwait. reflexivity.
Qed.

Lemma posix_output_round_trip_witness :
  evaluate
    (Posix (healthy_posix (fun _ => ExecRuns
       {| run_stdout := [ReadData "hello-"; ReadData "stdout"];
          run_stderr := [ReadData "hello-stderr"];
          run_stat := W_EXITCODE 0 0 |})))
    false "./hello" [] []
  = Returned {| exit_code := 0; stdout := "hello-stdout"; stderr := "hello-stderr" |}.
Proof.
  apply (posix_output_round_trip
           (healthy_posix (fun _ => ExecRuns
              {| run_stdout := [ReadData "hello-"; ReadData "stdout"];
                 run_stderr := [ReadData "hello-stderr"];
                 run_stat := W_EXITCODE 0 0 |}))
           false "./hello" [] []
           {| run_stdout := [ReadData "hello-"; ReadData "stdout"];
              run_stderr := [ReadData "hello-stderr"];
              run_stat := W_EXITCODE 0 0 |}).
  - reflexivity.
  - reflexivity.
  - repeat constructor.
  - repeat constructor.
  - cbn. lia.
  - reflexivity.
Defined.

(** X8. The POSIX invocation returns a result exactly when the three pipes
    and the child were created, the [close] of [errfp] did not fail and
    [waitpid] succeeded: nothing the child writes and no way it ends makes
    the invocation throw.  When it throws, it is the failure to execute
    with -1, the failure to close the err stream with the negative status,
    or the failure to wait. *)
Theorem posix_outcomes (os : posix_os) (e : bool) (cmd : string)
  (args env : list string) :
  ((exists r, evaluate (Posix os) e cmd args env = Returned r) <->
   spawns os = true /\ 0 <= close_rc os (Fd p_stderr READ) /\
   waitpid_ok os = true) /\
  (forall err, evaluate (Posix os) e cmd args env = Thrown err ->
     (spawns os = false /\ err = FailedToExecute (-1)) \/
     (spawns os = true /\ close_rc os (Fd p_stderr READ) < 0 /\
      err = FailedToCloseErr (close_rc os (Fd p_stderr READ))) \/
     (spawns os = true /\ waitpid_ok os = false /\ err = FailedToWait)).
Proof.
  unfold evaluate. destruct (spawns os) eqn:Hs.
  - destruct (evaluate_posix_spawned os e cmd args env Hs) as (Hr & _).
    rewrite Hr.
    destruct (close_rc os (Fd p_stderr READ) <? 0) eqn:Hc;
      [apply Z.ltb_lt in Hc | apply Z.ltb_ge in Hc].
    + split.
      * split; [intros [r H]; discriminate H | intros (_ & H & _); lia].
      * intros err H. injection H as <-. right. left. auto.
    + destruct (waitpid_ok os) eqn:Hw.
      * split.
        { split; [auto | intros _; eexists; reflexivity]. }
        { intros err H. discriminate H. }
      * split.
        { split; [intros [r H]; discriminate H | intros (_ & _ & H); discriminate H]. }
        { intros err H. injection H as <-. right. right. auto. }
  - destruct (evaluate_posix_not_spawned os e cmd args env Hs) as (Hr & _).
    rewrite Hr. split.
    + split; [intros [r H]; discriminate H | intros (H & _); discriminate H].
    + intros err H. injection H as <-. left. auto.
Qed.

Lemma spawns_with_close_rc (os : posix_os) (rc : posix_handle -> Z) :
  spawns (with_close_rc os rc) = spawns os.
Proof. reflexivity. Qed.

(** X9. Only the status of the last [close], that of [errfp], is looked
    at: whatever the other calls of [close] return, that of [outfp]
    included, the outcome of the invocation is the same. *)
Theorem only_errfp_close_status_counts (os : posix_os) (rc : posix_handle -> Z)
  (e : bool) (cmd : string) (args env : list string) :
  rc (Fd p_stderr READ) = close_rc os (Fd p_stderr READ) ->
  evaluate (Posix (with_close_rc os rc)) e cmd args env
  = evaluate (Posix os) e cmd args env.
Proof.
  intro Hrc. unfold evaluate. destruct (spawns os) eqn:Hs.
  - destruct (evaluate_posix_spawned os e cmd args env Hs) as (Hr & _).
    destruct (evaluate_posix_spawned (with_close_rc os rc) e cmd args env Hs)
      as (Hr' & _).
    rewrite Hr, Hr'. cbn [close_rc with_close_rc waitpid_ok]. rewrite Hrc.
    reflexivity.
  - destruct (evaluate_posix_not_spawned os e cmd args env Hs) as (Hr & _).
    destruct (evaluate_posix_not_spawned (with_close_rc os rc) e cmd args env Hs)
      as (Hr' & _).
    now rewrite Hr, Hr'.
Qed.

Lemma only_errfp_close_status_counts_witness :
  evaluate
    (Posix (with_close_rc
              (healthy_posix (fun _ => ExecRuns
                 {| run_stdout := [ReadData "out"]; run_stderr := [];
                    run_stat := W_EXITCODE 0 0 |}))
              (fun h => if posix_handle_eqb h (Fd p_stdout READ) then -1 else 0)))
    false "ls" [] []
  = evaluate
      (Posix (healthy_posix (fun _ => ExecRuns
         {| run_stdout := [ReadData "out"]; run_stderr := [];
            run_stat := W_EXITCODE 0 0 |})))
      false "ls" [] [].
Proof.
  apply (only_errfp_close_status_counts
           (healthy_posix (fun _ => ExecRuns
              {| run_stdout := [ReadData "out"]; run_stderr := [];
                 run_stat := W_EXITCODE 0 0 |}))
           (fun h => if posix_handle_eqb h (Fd p_stdout READ) then -1 else 0)).
  reflexivity.
Defined.

(** X10. In shell-string mode the child is a command interpreter handed
    the line as one command, on both backends ([/bin/sh -c] and [cmd /C]);
    [env] is not used and the child starts with the environment of the
    calling process. *)
Theorem shell_string_launch (pf : platform) (cmd : string)
  (args env : list string) (l : launch) :
  C_string cmd -> Forall C_string args ->
  In l (launches pf false cmd args env) ->
  runs_shell_on l (command_line POSIX cmd args) /\
  child_environment pf l = parent_environment pf.
Proof.
  intros Hc Ha Hl. destruct pf as [os | os].
  - rewrite launches_posix in Hl. destruct (spawns os); [|destruct Hl].
    destruct Hl as [Hl | []]. subst l. rewrite posix_request_shell.
    unfold runs_shell_on, child_environment, parent_environment.
    cbn [exec_file exec_argv exec_environ].
    rewrite (C_string_command_line POSIX cmd args Hc Ha). auto.
  - apply launches_win32 in Hl. subst l. split; [|reflexivity].
    unfold runs_shell_on, win_request. cbn [lpApplicationName lpCommandLine].
    split; [reflexivity|].
    rewrite (C_string_command_line WIN32 cmd args Hc Ha).
    rewrite command_line_win32, command_line_posix.
    now rewrite !append_assoc.
Qed.

Lemma shell_string_launch_witness :
  runs_shell_on
    (ByExec (posix_request (healthy_posix (fun _ => ExecFails "No such file or directory"))
               false "ls" ["-l"; "/usr/lib"] ["LANG=C"]))
    (command_line POSIX "ls" ["-l"; "/usr/lib"]) /\
  child_environment (Posix (healthy_posix (fun _ => ExecFails "No such file or directory")))
    (ByExec (posix_request (healthy_posix (fun _ => ExecFails "No such file or directory"))
               false "ls" ["-l"; "/usr/lib"] ["LANG=C"]))
  = parent_environment (Posix (healthy_posix (fun _ => ExecFails "No such file or directory"))).
Proof.
  apply (shell_string_launch
           (Posix (healthy_posix (fun _ => ExecFails "No such file or directory")))
           "ls" ["-l"; "/usr/lib"] ["LANG=C"]).
  - reflexivity.
  - repeat constructor.
  - left. reflexivity.
Defined.

(** X11. On no path does the POSIX invocation close a descriptor, or reap
    the child, twice, and it releases only what it created. *)
Theorem posix_never_releases_twice (os : posix_os) (e : bool) (cmd : string)
  (args env : list string) (h : posix_handle) :
  let after := posix_handles_after os e cmd args env in
  (times_released posix_handle_eqb after h <= 1)%nat /\
  (times_released posix_handle_eqb after h = 1%nat -> In h (opened after)).
Proof.
  unfold posix_handles_after, times_released. destruct (spawns os) eqn:Hs.
  - destruct (evaluate_posix_spawned os e cmd args env Hs) as (_ & _ & Hop & Hrel).
    cbv zeta. rewrite Hop, Hrel.
    destruct ((close_rc os (Fd p_stderr READ) <? 0) || negb (waitpid_ok os));
      destruct h as [[] []|]; cbn; split; auto 10; lia.
  - destruct (evaluate_posix_not_spawned os e cmd args env Hs) as (_ & _ & Hrel).
    cbv zeta. rewrite Hrel. cbn. split; [lia | discriminate].
Qed.

(** X12. Once the pipes and the child exist, each of the six pipe
    descriptors is closed exactly once on every path, result or exception;
    the child is reaped exactly when a result is returned. *)
Theorem spawned_descriptors_closed_once (os : posix_os) (e : bool) (cmd : string)
  (args env : list string) :
  spawns os = true ->
  let after := posix_handles_after os e cmd args env in
  (forall p d, times_released posix_handle_eqb after (Fd p d) = 1%nat) /\
  (times_released posix_handle_eqb after Child = 1%nat <->
   exists r, evaluate (Posix os) e cmd args env = Returned r).
Proof.
  intro Hs. unfold posix_handles_after, times_released, evaluate.
  destruct (evaluate_posix_spawned os e cmd args env Hs) as (Hr & _ & _ & Hrel).
  cbv zeta. rewrite Hrel, Hr.
  destruct (close_rc os (Fd p_stderr READ) <? 0); cbn [orb].
  - split; [intros [] []; reflexivity|].
    split; [discriminate | intros [r H]; discriminate H].
  - destruct (waitpid_ok os); cbn [negb].
    + split; [intros [] []; reflexivity|].
      split; [intros _; eexists; reflexivity | reflexivity].
    + split; [intros [] []; reflexivity|].
      split; [discriminate | intros [r H]; discriminate H].
Qed.

Lemma spawned_descriptors_closed_once_witness :
  times_released posix_handle_eqb
    (posix_handles_after
       (posix_os_with (fun _ => 0) (Some 7%positive)
          (fun _ => ExecFails "No such file or directory") (-1) true)
       true "/no/such" [] [])
    (Fd p_stdout READ) = 1%nat.
Proof.
  apply (proj1 (spawned_descriptors_closed_once
           (posix_os_with (fun _ => 0) (Some 7%positive)
              (fun _ => ExecFails "No such file or directory") (-1) true)
           true "/no/such" [] [] eq_refl)).
Defined.

(** ** Marshalling *)

Lemma c_str_idempotent (s : string) : c_str (c_str s) = c_str s.
Proof.
  induction s as [|a s IH]; cbn; [reflexivity|].
  destruct (Ascii.eqb a NUL) eqn:E; cbn; [reflexivity|].
  now rewrite E, IH.
Qed.

Lemma c_str_no_NUL (s : string) : contains NUL (c_str s) = false.
Proof.
  induction s as [|a s IH]; cbn; [reflexivity|].
  destruct (Ascii.eqb a NUL) eqn:E; cbn; [reflexivity|].
  now rewrite E, IH.
Qed.

(** X13. Whatever the items hold, every value the marshalling loops store
    in [lArgs] and [lEnv] is free of NUL bytes and is a C string as it
    stands, so that [strdup] of its [c_str()] copies it whole; a sequence
    that [aArgs] does not have gives the empty list. *)
Theorem marshalled_values_are_C_strings (aArgs : list (list string)) (pos : nat) :
  Forall (fun v => C_string v /\ contains NUL v = false)
    (marshal_sequence aArgs pos) /\
  ((List.length aArgs <= pos)%nat -> marshal_sequence aArgs pos = []).
Proof.
  unfold marshal_sequence. split.
  - destruct (Nat.ltb pos (List.length aArgs)); [|constructor].
    induction (nth pos aArgs []) as [|v items IH]; cbn; constructor; auto.
    split; [apply c_str_idempotent | apply c_str_no_NUL].
  - intro H. apply Nat.ltb_ge in H. now rewrite H.
Qed.

(** ** The WIN32 backend, continued *)

(** The handles on the paths before a child exists. *)
Lemma win32_handles_no_pipe (os : win_os) (e : bool) (cmd : string)
  (args env : list string) :
  create_pipe_ok os lOutRead && create_pipe_ok os lErrRead = false ->
  let after := win_handles_after os e cmd args env in
  opened after = (if create_pipe_ok os lOutRead then [lOutRead; lStdOut] else []) /\
  released after = [].
Proof.
  intro H. unfold win_handles_after. run_win32.
  destruct (create_pipe_ok os lOutRead); cbn; auto.
  destruct (create_pipe_ok os lErrRead); cbn; auto. discriminate H.
Qed.

(** The outcome and the handles on the paths after the child was created. *)
Lemma evaluate_win32_after_creation (os : win_os) (e : bool) (cmd : string)
  (args env : list string) (run : win_run) :
  create_pipe_ok os lOutRead && create_pipe_ok os lErrRead = true ->
  create_process os (win_request cmd args) = Some run ->
  let r := evaluate_win32 os e cmd args env win_initial in
  opened (win_held (snd r))
  = [lOutRead; lStdOut; lErrRead; lStdErr; hProcess; hThread] /\
  (if get_exit_code_ok os
   then match read_child_output (win_stdout run) "" with
        | Thrown err =>
            fst r = Thrown err /\
            released (win_held (snd r)) = [hThread; hProcess; lStdOut; lStdErr]
        | Returned lStdout =>
            match read_child_output (win_stderr run) "" with
            | Thrown err =>
                fst r = Thrown err /\
                released (win_held (snd r)) = [hThread; hProcess; lStdOut; lStdErr]
            | Returned lStderr =>
                let code := int_of_DWORD (win_exit_code run) in
                fst r = (if negb (code =? 0) then Thrown (FailedToExecute code)
                         else Returned (create_result_object lStdout lStderr code)) /\
                released (win_held (snd r))
                = [hThread; hProcess; lStdOut; lStdErr; lOutRead; lErrRead]
            end
        end
   else fst r = Thrown (NoExitCode (command_line WIN32 cmd args)) /\
        released (win_held (snd r)) = [hThread]).
Proof.
  intros H Hc. apply andb_true_iff in H. destruct H as [H1 H2].
  unfold win_request in *. run_win32.
  generalize dependent (command_line WIN32 cmd args). intros line Hc.
  rewrite H1. cbn. rewrite H2. cbn. rewrite Hc. cbn.
  destruct (get_exit_code_ok os); cbn; [|auto].
  destruct (read_child_output (win_stdout run) ""); cbn; [|auto].
  destruct (read_child_output (win_stderr run) ""); cbn; [|auto].
  destruct (negb (int_of_DWORD (win_exit_code run) =? 0)); cbn; auto.
Qed.

(** X14. Every result the WIN32 invocation returns has exit code 0: a
    child that ends with another code makes the invocation throw. *)
Theorem win32_result_has_exit_code_zero (os : win_os) (e : bool) (cmd : string)
  (args env : list string) (r : ExecutionResult) :
  evaluate (Win32 os) e cmd args env = Returned r -> exit_code r = 0.
Proof.
  unfold evaluate. intro Hr.
  destruct (create_pipe_ok os lOutRead && create_pipe_ok os lErrRead) eqn:Hp.
  - destruct (create_process os (win_request cmd args)) as [run|] eqn:Hc.
    + destruct (evaluate_win32_after_creation os e cmd args env run Hp Hc) as [_ H].
      destruct (get_exit_code_ok os); [|destruct H as [H _]; congruence].
      destruct (read_child_output (win_stdout run) "");
        [|destruct H as [H _]; congruence].
      destruct (read_child_output (win_stderr run) "");
        [|destruct H as [H _]; congruence].
      destruct H as [H _]. cbv zeta in H.
      destruct (int_of_DWORD (win_exit_code run) =? 0) eqn:E; cbn [negb] in H;
        [|congruence].
      apply Z.eqb_eq in E. rewrite H in Hr. injection Hr as <-. exact E.
    + destruct (evaluate_win32_no_process os e cmd args env Hp Hc) as (H & _).
      congruence.
  - destruct (evaluate_win32_no_pipe os e cmd args env Hp) as [H _]. congruence.
Qed.

Lemma win32_result_has_exit_code_zero_witness :
  evaluate
    (Win32 (healthy_win32
       {| win_stdout := [ {| read_ok := true; read_bytes := "done";
                             read_last_error := 0 |} ];
          win_stderr := []; win_exit_code := 0 |}))
    false "echo" ["done"] []
  = Returned {| exit_code := 0; stdout := "done"; stderr := "" |} /\
  exit_code {| exit_code := 0; stdout := "done"; stderr := "" |} = 0.
Proof.
  assert (H : evaluate
    (Win32 (healthy_win32
       {| win_stdout := [ {| read_ok := true; read_bytes := "done";
                             read_last_error := 0 |} ];
          win_stderr := []; win_exit_code := 0 |}))
    false "echo" ["done"] []
    = Returned {| exit_code := 0; stdout := "done"; stderr := "" |})
    by reflexivity.
  split; [exact H|].
  exact (win32_result_has_exit_code_zero _ _ _ _ _ _ H).
Defined.

Lemma without_CR_append (a b : string) :
  without_CR (a ++ b) = without_CR a ++ without_CR b.
Proof.
  induction a as [|x a IH]; cbn; [reflexivity|].
  unfold strip_CR_byte. rewrite IH. destruct (Ascii.eqb x "013"); reflexivity.
Qed.

Lemma without_CR_clean (s : string) : contains CR (without_CR s) = false.
Proof.
  unfold CR. induction s as [|x s IH]; cbn; [reflexivity|].
  unfold strip_CR_byte. destruct (Ascii.eqb x "013") eqn:E; [exact IH|].
  cbn. now rewrite E, IH.
Qed.

Lemma without_CR_id (s : string) : contains CR s = false -> without_CR s = s.
Proof.
  unfold CR. induction s as [|x s IH]; cbn; [reflexivity|].
  intro H. apply orb_false_iff in H. destruct H as [Hx Hs].
  unfold strip_CR_byte. rewrite Hx. now rewrite IH.
Qed.

Lemma read_child_output_goes_on (reads : list win_read) (aTargetStream : string) :
  Forall goes_on reads ->
  forall rest,
    read_child_output (reads ++ rest)%list aTargetStream
    = read_child_output rest (aTargetStream ++ without_CR (win_delivered reads)).
Proof.
  intros H rest. revert aTargetStream. unfold win_delivered, join.
  induction H as [|r reads [Hok Hne] _ IH]; intro aTargetStream; cbn.
  - now rewrite append_empty_r.
  - rewrite Hok. destruct (read_bytes r) as [|a s] eqn:Hb; [congruence|].
    cbn [String.length Z.of_nat negb orb Z.eqb].
    rewrite IH, without_CR_append. now rewrite append_assoc.
Qed.

(** X15. While every [ReadFile] succeeds with bytes, [read_child_output]
    collects them in order; what it has at the broken pipe is the bytes of
    all the reads with every carriage return removed and every other byte
    kept, whatever the way the bytes were split over the reads. *)
Theorem read_child_output_collects (reads : list win_read) :
  Forall goes_on reads ->
  read_child_output reads "" = Returned (without_CR (win_delivered reads)) /\
  contains CR (without_CR (win_delivered reads)) = false /\
  (contains CR (win_delivered reads) = false ->
   read_child_output reads "" = Returned (win_delivered reads)).
Proof.
  intro H.
  assert (Hr : read_child_output reads ""
               = Returned (without_CR (win_delivered reads))).
  { rewrite <- (app_nil_r reads) at 1.
    rewrite (read_child_output_goes_on reads "" H []). reflexivity. }
  split; [exact Hr|]. split; [apply without_CR_clean|].
  intro Hc. now rewrite Hr, without_CR_id.
Qed.

Lemma read_child_output_collects_witness :
  read_child_output
    [ {| read_ok := true; read_bytes := "one" ++ String "013" newline;
         read_last_error := 0 |};
      {| read_ok := true; read_bytes := "two"; read_last_error := 0 |} ] ""
  = Returned ("one" ++ newline ++ "two").
Proof.
  apply (read_child_output_collects
           [ {| read_ok := true; read_bytes := "one" ++ String "013" newline;
                read_last_error := 0 |};
             {| read_ok := true; read_bytes := "two"; read_last_error := 0 |} ]).
  repeat constructor; discriminate.
Defined.

(** X16. The first [ReadFile] that fails, or that succeeds with no byte,
    ends [read_child_output], and what [GetLastError] answers then decides:
    a broken pipe returns what was collected, anything else throws the last
    error and what was collected is lost.  No later read is made. *)
Theorem read_child_output_first_stop_decides (before after : list win_read)
  (r : win_read) (aTargetStream : string) :
  Forall goes_on before ->
  read_ok r = false \/ read_bytes r = "" ->
  read_child_output (before ++ r :: after)%list aTargetStream
  = if read_last_error r =? ERROR_BROKEN_PIPE
    then Returned (aTargetStream ++ without_CR (win_delivered before))
    else Thrown (LastError 137 (read_last_error r)).
Proof.
  intros Hb Hr. rewrite (read_child_output_goes_on before aTargetStream Hb).
  cbn [read_child_output].
  replace (negb (read_ok r) || (Z.of_nat (String.length (read_bytes r)) =? 0))
    with true; [reflexivity|].
  destruct Hr as [Hr | Hr]; rewrite Hr; [reflexivity|].
  cbn. now rewrite orb_true_r.
Qed.

Lemma read_child_output_first_stop_decides_witness :
  read_child_output
    [ {| read_ok := true; read_bytes := "kept?"; read_last_error := 0 |};
      {| read_ok := true; read_bytes := ""; read_last_error := 0 |};
      {| read_ok := true; read_bytes := "more"; read_last_error := 0 |} ] ""
  = Thrown (LastError 137 0).
Proof.
  apply (read_child_output_first_stop_decides
           [ {| read_ok := true; read_bytes := "kept?"; read_last_error := 0 |} ]
           [ {| read_ok := true; read_bytes := "more"; read_last_error := 0 |} ]
           {| read_ok := true; read_bytes := ""; read_last_error := 0 |} "").
  - repeat constructor; discriminate.
  - right. reflexivity.
Defined.

(** X17. When the WIN32 invocation returns a result, the four pipe handles
    and the process and thread handles of the child have each been closed
    exactly once. *)
Theorem win32_result_releases_all (os : win_os) (e : bool) (cmd : string)
  (args env : list string) (r : ExecutionResult) :
  evaluate (Win32 os) e cmd args env = Returned r ->
  all_released_once win_handle_eqb (win_handles_after os e cmd args env) = true.
Proof.
  unfold evaluate, win_handles_after, all_released_once, times_released.
  intro Hr.
  destruct (create_pipe_ok os lOutRead && create_pipe_ok os lErrRead) eqn:Hp.
  - destruct (create_process os (win_request cmd args)) as [run|] eqn:Hc.
    + destruct (evaluate_win32_after_creation os e cmd args env run Hp Hc)
        as [Hop H].
      rewrite Hop.
      destruct (get_exit_code_ok os); [|destruct H as [H _]; congruence].
      destruct (read_child_output (win_stdout run) "");
        [|destruct H as [H _]; congruence].
      destruct (read_child_output (win_stderr run) "");
        [|destruct H as [H _]; congruence].
      destruct H as [_ Hrel]. now rewrite Hrel.
    + destruct (evaluate_win32_no_process os e cmd args env Hp Hc) as (H & _).
      congruence.
  - destruct (evaluate_win32_no_pipe os e cmd args env Hp) as [H _]. congruence.
Qed.

Lemma win32_result_releases_all_witness :
  all_released_once win_handle_eqb
    (win_handles_after (healthy_win32 (silent_exit 0)) false "ver" [] []) = true.
Proof.
  apply (win32_result_releases_all (healthy_win32 (silent_exit 0)) false "ver" [] []
           {| exit_code := 0; stdout := ""; stderr := "" |}).
  reflexivity.
Defined.

(** X18. On no path does the WIN32 invocation close a handle twice, and it
    closes only handles it created. *)
Theorem win32_never_releases_twice (os : win_os) (e : bool) (cmd : string)
  (args env : list string) (h : win_handle) :
  let after := win_handles_after os e cmd args env in
  (times_released win_handle_eqb after h <= 1)%nat /\
  (times_released win_handle_eqb after h = 1%nat -> In h (opened after)).
Proof.
  cbv zeta.
  destruct (create_pipe_ok os lOutRead && create_pipe_ok os lErrRead) eqn:Hp.
  - destruct (create_process os (win_request cmd args)) as [run|] eqn:Hc.
    + destruct (evaluate_win32_after_creation os e cmd args env run Hp Hc)
        as [Hop H].
      unfold win_handles_after, times_released. rewrite Hop.
      assert (Hrel :
        released (win_held (snd (evaluate_win32 os e cmd args env win_initial)))
        = [hThread] \/
        released (win_held (snd (evaluate_win32 os e cmd args env win_initial)))
        = [hThread; hProcess; lStdOut; lStdErr] \/
        released (win_held (snd (evaluate_win32 os e cmd args env win_initial)))
        = [hThread; hProcess; lStdOut; lStdErr; lOutRead; lErrRead]).
      { destruct (get_exit_code_ok os); [|left; apply H].
        destruct (read_child_output (win_stdout run) "");
          [|right; left; apply H].
        destruct (read_child_output (win_stderr run) "");
          [|right; left; apply H].
        right. right. apply H. }
      destruct Hrel as [-> | [-> | ->]]; destruct h; cbn; split; auto 10; lia.
    + destruct (evaluate_win32_no_process os e cmd args env Hp Hc)
        as (_ & _ & Hop & Hrel).
      unfold win_handles_after, times_released. rewrite Hop, Hrel.
      destruct h; cbn; split; auto 10; lia.
  - destruct (win32_handles_no_pipe os e cmd args env Hp) as [_ Hrel].
    unfold times_released. rewrite Hrel. cbn. split; [lia | discriminate].
Qed.

(** X19. The exceptions of the WIN32 invocation: no pipe, the last error
    of a failed [CreateProcess], no exit code, the last error of a failed
    read, or the failure to execute carrying a code that is not 0. *)
Theorem win32_exceptions (os : win_os) (e : bool) (cmd : string)
  (args env : list string) (err : exec_error) :
  evaluate (Win32 os) e cmd args env = Thrown err ->
  err = NoPipe \/
  err = LastError 285 (create_process_error os) \/
  err = NoExitCode (command_line WIN32 cmd args) \/
  (exists code, code <> ERROR_BROKEN_PIPE /\ err = LastError 137 code) \/
  (exists code, code <> 0 /\ err = FailedToExecute code).
Proof.
  unfold evaluate. intro Hr.
  destruct (create_pipe_ok os lOutRead && create_pipe_ok os lErrRead) eqn:Hp.
  - destruct (create_process os (win_request cmd args)) as [run|] eqn:Hc.
    + destruct (evaluate_win32_after_creation os e cmd args env run Hp Hc) as [_ H].
      assert (Hread : forall reads acc err',
                read_child_output reads acc = Thrown err' ->
                exists code, code <> ERROR_BROKEN_PIPE /\ err' = LastError 137 code).
      { induction reads as [|r reads IH]; intros acc err' Hx; cbn in Hx.
        - discriminate Hx.
        - destruct (negb (read_ok r) || _); [|now apply (IH _ _ Hx)].
          destruct (read_last_error r =? ERROR_BROKEN_PIPE) eqn:E;
            [discriminate Hx|].
          apply Z.eqb_neq in E. injection Hx as <-. eauto. }
      destruct (get_exit_code_ok os);
        [|destruct H as [H _]; right; right; left; congruence].
      destruct (read_child_output (win_stdout run) "") eqn:Eo.
      * destruct (read_child_output (win_stderr run) "") eqn:Ee.
        { destruct H as [H _]. cbv zeta in H.
          destruct (int_of_DWORD (win_exit_code run) =? 0) eqn:E;
            cbn [negb] in H; [congruence|].
          apply Z.eqb_neq in E. right. right. right. right.
          exists (int_of_DWORD (win_exit_code run)). split; [exact E | congruence]. }
        { destruct H as [H _]. right. right. right. left.
          destruct (Hread _ _ _ Ee) as [code [Hn He]].
          exists code. split; [exact Hn | congruence]. }
      * destruct H as [H _]. right. right. right. left.
        destruct (Hread _ _ _ Eo) as [code [Hn He]].
        exists code. split; [exact Hn | congruence].
    + destruct (evaluate_win32_no_process os e cmd args env Hp Hc) as (H & _).
      right. left. congruence.
  - destruct (evaluate_win32_no_pipe os e cmd args env Hp) as [H _].
    left. congruence.
Qed.

Lemma win32_exceptions_witness :
  LastError 285 2 = NoPipe \/
  LastError 285 2 = LastError 285 2 \/
  LastError 285 2 = NoExitCode (command_line WIN32 "nothing" []) \/
  (exists code, code <> ERROR_BROKEN_PIPE /\ LastError 285 2 = LastError 137 code) \/
  (exists code, code <> 0 /\ LastError 285 2 = FailedToExecute code).
Proof.
  apply (win32_exceptions
           {| win_environ := []; create_pipe_ok := fun _ => true;
              create_process := fun _ => None; create_process_error := 2;
              get_exit_code_ok := true |}
           false "nothing" [] [] (LastError 285 2)).
  reflexivity.
Defined.

(** ** The function registry *)

Section Registry.
Local Open Scope list_scope.
Local Open Scope nat_scope.

Variable default_mode : bool.

Lemma map_find_app (k k' : string) (v : pointer) (m : list (string * pointer)) :
  map_find k (m ++ [(k', v)])
  = match map_find k m with
    | Some p => Some p
    | None => if String.eqb k' k then Some v else None
    end.
Proof.
  induction m as [|[k0 v0] m IH]; cbn; [reflexivity|].
  destruct (String.eqb k0 k); [reflexivity | exact IH].
Qed.

Lemma map_assign_fresh (k : string) (p : pointer) (m : list (string * pointer)) :
  map_find k m = None ->
  map_assign k p (m ++ [(k, None)]) = m ++ [(k, p)].
Proof.
  induction m as [|[k0 v0] m IH]; cbn; intro H.
  - now rewrite String.eqb_refl.
  - destruct (String.eqb k0 k); [discriminate H|]. now rewrite IH.
Qed.

Lemma held_pointers_app (m : list (string * pointer)) (k : string) (p : pointer) :
  held_pointers (m ++ [(k, p)])
  = held_pointers m ++ match p with Some a => [a] | None => [] end.
Proof.
  induction m as [|[k0 [a0|]] m IH]; cbn.
  - destruct p; reflexivity.
  - now rewrite IH.
  - exact IH.
Qed.

Lemma function_names_app (m : list (string * pointer)) (k : string) (p : pointer) :
  function_names (m ++ [(k, p)])
  = function_names m ++ match p with Some _ => [k] | None => [] end.
Proof.
  induction m as [|[k0 [a0|]] m IH]; cbn.
  - destruct p; reflexivity.
  - now rewrite IH.
  - exact IH.
Qed.

(** What a lookup does, case by case. *)
Lemma getExternalFunction_cases (name : string) (st : ProcessModule) :
  getExternalFunction default_mode name st
  = match map_find name (theFunctions st) with
    | Some p => (p, with_functions (theFunctions st) st)
    | None =>
        if String.eqb name "exec-command" then
          (Some (next_address st),
           {| theFunctions := theFunctions st ++ [(name, Some (next_address st))];
              heap := heap st ++ [(next_address st,
                                   {| theIsExecProgram := default_mode |})];
              next_address := S (next_address st);
              deleted := deleted st |})
        else if String.eqb name "exec" then
          (Some (next_address st),
           {| theFunctions := theFunctions st ++ [(name, Some (next_address st))];
              heap := heap st ++ [(next_address st,
                                   {| theIsExecProgram := true |})];
              next_address := S (next_address st);
              deleted := deleted st |})
        else
          (None,
           with_functions (theFunctions st ++ [(name, None)]) st)
    end.
Proof.
  unfold getExternalFunction, map_subscript.
  destruct (map_find name (theFunctions st)) as [p|] eqn:Hf.
  - cbn [with_functions theFunctions]. now rewrite Hf.
  - cbn [with_functions theFunctions new_ExecFunction heap next_address deleted].
    destruct (String.eqb name "exec-command").
    + rewrite (map_assign_fresh name _ _ Hf).
      cbn [with_functions theFunctions heap next_address deleted].
      rewrite map_find_app, Hf. now rewrite String.eqb_refl.
    + destruct (String.eqb name "exec").
      * rewrite (map_assign_fresh name _ _ Hf).
        cbn [with_functions theFunctions heap next_address deleted].
        rewrite map_find_app, Hf. now rewrite String.eqb_refl.
      * cbn [with_functions theFunctions]. rewrite map_find_app, Hf.
        now rewrite String.eqb_refl.
Qed.

Lemma with_functions_same (st : ProcessModule) :
  with_functions (theFunctions st) st = st.
Proof. now destruct st. Qed.

(** X20. Lookups are cached: asking [getExternalFunction] for the same
    name again returns the same pointer and changes nothing, so at most one
    object is made per name. *)
Theorem getExternalFunction_cached (name : string) (st : ProcessModule) :
  let first := getExternalFunction default_mode name st in
  getExternalFunction default_mode name (snd first) = first.
Proof.
  cbv zeta. rewrite (getExternalFunction_cases name st).
  destruct (map_find name (theFunctions st)) as [p|] eqn:Hf.
  - cbn [snd]. rewrite with_functions_same, getExternalFunction_cases, Hf.
    now rewrite with_functions_same.
  - destruct (String.eqb name "exec-command");
      [|destruct (String.eqb name "exec")];
      cbn [snd]; rewrite getExternalFunction_cases;
      cbn [theFunctions with_functions]; rewrite map_find_app, Hf, String.eqb_refl;
      reflexivity.
Qed.

Lemma registry_invariant_new : registry_invariant default_mode new_module.
Proof.
  unfold registry_invariant, new_module. cbn.
  repeat split; try discriminate; try constructor; try tauto.
Qed.

Lemma registry_invariant_lookup (name : string) (st : ProcessModule) :
  registry_invariant default_mode st ->
  registry_invariant default_mode (snd (getExternalFunction default_mode name st)).
Proof.
  intros (I1 & I2 & I3 & I4 & I5 & I6).
  rewrite getExternalFunction_cases.
  destruct (map_find name (theFunctions st)) as [p|] eqn:Hf.
  - cbn [snd]. rewrite with_functions_same. repeat split; auto; apply I5.
  - assert (Hfresh : ~ In name (map fst (theFunctions st))).
    { intro H. apply I5 in H. congruence. }
    assert (Hkeys : forall v, NoDup (map fst (theFunctions st ++ [(name, v)]))).
    { intro v. rewrite map_app. cbn. apply NoDup_app; auto.
      - constructor; [tauto | constructor].
      - intros k Hk [<- | []]. contradiction. }
    assert (Hin : forall v k,
              In k (map fst (theFunctions st ++ [(name, v)])) <->
              map_find k (theFunctions st ++ [(name, v)]) <> None).
    { intros v k. rewrite map_app, in_app_iff, map_find_app. cbn.
      specialize (I5 k).
      destruct (map_find k (theFunctions st)) eqn:Hk.
      - split; [discriminate | intros _; left; apply I5; discriminate].
      - destruct (String.eqb_spec name k) as [-> | Hn].
        + split; [discriminate | auto].
        + split; [|congruence]. intros [H | [H | []]]; [|contradiction].
          apply I5 in H. congruence. }
    assert (Hold : forall v (extra : list (nat * ExecFunction)) k p,
              map_find k (theFunctions st ++ [(name, v)]) = Some p ->
              match v with
              | Some a =>
                  (name = "exec" /\
                   In (a, {| theIsExecProgram := true |}) (heap st ++ extra)) \/
                  (name = "exec-command" /\
                   In (a, {| theIsExecProgram := default_mode |}) (heap st ++ extra))
              | None => name <> "exec" /\ name <> "exec-command"
              end ->
              match p with
              | Some a =>
                  (k = "exec" /\
                   In (a, {| theIsExecProgram := true |}) (heap st ++ extra)) \/
                  (k = "exec-command" /\
                   In (a, {| theIsExecProgram := default_mode |}) (heap st ++ extra))
              | None => k <> "exec" /\ k <> "exec-command"
              end).
    { intros v extra k p Hk Hv. rewrite map_find_app in Hk.
      destruct (map_find k (theFunctions st)) as [q|] eqn:Hq.
      - injection Hk as <-. specialize (I1 k q Hq).
        destruct q; [|exact I1].
        destruct I1 as [[? ?] | [? ?]]; [left | right];
          (split; [assumption | apply in_or_app; now left]).
      - destruct (String.eqb_spec name k) as [-> | Hn]; [|discriminate Hk].
        injection Hk as <-. exact Hv. }
    destruct (String.eqb_spec name "exec-command") as [Hc | Hc].
    + cbn [snd]. unfold registry_invariant.
      cbn [theFunctions heap next_address deleted].
      repeat split; auto; try apply Hin.
      * intros k p Hk. apply (Hold _ _ k p Hk).
        right. split; [exact Hc | apply in_or_app; right; now left].
      * rewrite held_pointers_app, map_app, I2. reflexivity.
      * rewrite map_app, I3, seq_S. reflexivity.
    + destruct (String.eqb_spec name "exec") as [He | He].
      * cbn [snd]. unfold registry_invariant.
        cbn [theFunctions heap next_address deleted].
        repeat split; auto; try apply Hin.
        { intros k p Hk. apply (Hold _ _ k p Hk).
          left. split; [exact He | apply in_or_app; right; now left]. }
        { rewrite held_pointers_app, map_app, I2. reflexivity. }
        { rewrite map_app, I3, seq_S. reflexivity. }
      * cbn [snd]. unfold registry_invariant.
        cbn [theFunctions heap next_address deleted with_functions].
        repeat split; auto; try apply Hin.
        { intros k p Hk.
          pose proof (Hold None [] k p Hk (conj He Hc)) as H.
          rewrite app_nil_r in H. exact H. }
        { rewrite held_pointers_app, app_nil_r. exact I2. }
Qed.

Lemma registry_invariant_lookups (names : list string) :
  registry_invariant default_mode (lookups default_mode names).
Proof.
  unfold lookups.
  assert (H : forall st, registry_invariant default_mode st ->
            registry_invariant default_mode
              (fold_left (fun st name => snd (getExternalFunction default_mode name st))
                 names st)).
  { induction names as [|n names IH]; intros st Hst; cbn; [exact Hst|].
    apply IH. now apply registry_invariant_lookup. }
  apply H, registry_invariant_new.
Qed.

End Registry.

Section RegistryLifetime.
Local Open Scope list_scope.
Local Open Scope nat_scope.

Variable default_mode : bool.

Lemma getExternalFunction_returns_entry (name : string) (st : ProcessModule) :
  map_find name (theFunctions (snd (getExternalFunction default_mode name st)))
  = Some (fst (getExternalFunction default_mode name st)).
Proof.
  rewrite getExternalFunction_cases.
  destruct (map_find name (theFunctions st)) as [p|] eqn:Hf.
  - cbn. exact Hf.
  - destruct (String.eqb name "exec-command");
      [|destruct (String.eqb name "exec")];
      cbn [fst snd theFunctions with_functions];
      rewrite map_find_app, Hf, String.eqb_refl; reflexivity.
Qed.

(** X21. After any lookups, the name [exec] gives a function in
    program-args mode and the name [exec-command] one in the constructor's
    default mode, each alive in the module; any other name gives a null
    pointer. *)
Theorem registered_function_modes (names : list string) (name : string) :
  let r := getExternalFunction default_mode name (lookups default_mode names) in
  match fst r with
  | Some a =>
      (name = "exec" /\ In (a, {| theIsExecProgram := true |}) (heap (snd r))) \/
      (name = "exec-command" /\
       In (a, {| theIsExecProgram := default_mode |}) (heap (snd r)))
  | None => name <> "exec" /\ name <> "exec-command"
  end.
Proof.
  cbv zeta.
  pose proof (registry_invariant_lookup default_mode name _
                (registry_invariant_lookups default_mode names)) as (I1 & _).
  exact (I1 name _ (getExternalFunction_returns_entry name _)).
Qed.

Lemma map_find_of_entry (m : list (string * pointer)) (k : string) (v : pointer) :
  NoDup (map fst m) -> In (k, v) m -> map_find k m = Some v.
Proof.
  induction m as [|[k0 v0] m IH]; cbn; intros Hnd Hin; [contradiction|].
  inversion Hnd as [|? ? Hnotin Hnd']; subst.
  destruct Hin as [Heq | Hin].
  - injection Heq as -> ->. now rewrite String.eqb_refl.
  - destruct (String.eqb_spec k0 k) as [-> | Hn]; [|now apply IH].
    exfalso. apply Hnotin. apply (in_map fst) in Hin. exact Hin.
Qed.

Lemma function_names_entries (m : list (string * pointer)) (k : string) :
  In k (function_names m) -> exists a, In (k, Some a) m.
Proof.
  induction m as [|[k0 [a0|]] m IH]; cbn; intro H; [contradiction| |].
  - destruct H as [<- | H]; [eauto|]. destruct (IH H) as [a Ha]. eauto.
  - destruct (IH H) as [a Ha]. eauto.
Qed.

Lemma function_names_NoDup (m : list (string * pointer)) :
  NoDup (map fst m) -> NoDup (function_names m).
Proof.
  induction m as [|[k0 [a0|]] m IH]; cbn; intro Hnd; [constructor| |];
    inversion Hnd as [|? ? Hnotin Hnd']; subst; [|now apply IH].
  constructor; [|now apply IH].
  intro H. apply Hnotin. destruct (function_names_entries m k0 H) as [a Ha].
  apply (in_map fst) in Ha. exact Ha.
Qed.

Lemma function_names_length (m : list (string * pointer)) :
  List.length (function_names m) = List.length (held_pointers m).
Proof.
  induction m as [|[k0 [a0|]] m IH]; cbn; [reflexivity | now rewrite IH | exact IH].
Qed.

(** What the loop of the destructor leaves. *)
Lemma delete_all (m : list (string * pointer)) (st : ProcessModule) :
  let st' := fold_left (fun st lIter => delete (snd lIter) st) m st in
  deleted st' = deleted st ++ held_pointers m /\
  (forall o, In o (heap st') <-> In o (heap st) /\ ~ In (fst o) (held_pointers m)) /\
  next_address st' = next_address st.
Proof.
  revert st. induction m as [|[k [a|]] m IH]; intro st;
    cbn [fold_left snd held_pointers].
  - cbv zeta. rewrite app_nil_r. repeat split; tauto.
  - destruct (IH (delete (Some a) st)) as (Hd & Hh & Hn).
    cbv zeta. rewrite Hd, Hn. cbn [delete deleted next_address].
    rewrite <- app_assoc.
    split; [reflexivity|]. split; [|reflexivity]. intro o. split.
    + intro H. apply Hh in H. cbn in H. destruct H as [H Hnot].
      apply filter_In in H. destruct H as [H Hne].
      apply negb_true_iff, Nat.eqb_neq in Hne.
      split; [exact H|]. intros [Heq | Hin]; [congruence | contradiction].
    + intros [H Hnot]. apply Hh. cbn. split.
      * apply filter_In. split; [exact H|].
        apply negb_true_iff, Nat.eqb_neq. intro Heq. apply Hnot. now left.
      * intro Hin. apply Hnot. now right.
  - apply (IH st).
Qed.

Lemma held_pointers_Permutation (m m' : list (string * pointer)) :
  Permutation m m' -> Permutation (held_pointers m) (held_pointers m').
Proof.
  induction 1 as [|[k [a|]] m m' _ IH|[k [a|]] [k' [a'|]] m|m1 m2 m3 _ IH1 _ IH2];
    cbn [held_pointers].
  - constructor.
  - now constructor.
  - exact IH.
  - apply perm_swap.
  - apply Permutation_refl.
  - apply Permutation_refl.
  - apply Permutation_refl.
  - now apply Permutation_trans with (held_pointers m2).
Qed.

Lemma key_insert_Permutation (e : string * pointer) (m : list (string * pointer)) :
  Permutation (key_insert e m) (e :: m).
Proof.
  induction m as [|e' m IH]; cbn [key_insert].
  - apply Permutation_refl.
  - destruct (String.leb (fst e) (fst e')).
    + apply Permutation_refl.
    + apply Permutation_trans with (e' :: e :: m).
      * now constructor.
      * apply perm_swap.
Qed.

(** The walk of an ordered map visits every entry once. *)
Lemma key_order_Permutation (m : list (string * pointer)) :
  Permutation (key_order m) m.
Proof.
  induction m as [|e m IH]; cbn [key_order fold_right].
  - constructor.
  - apply Permutation_trans with (e :: key_order m).
    + apply key_insert_Permutation.
    + now constructor.
Qed.

(** After [exec-command] and then [exec] were looked up, an ordered map is
    walked from [exec] to [exec-command]: the function made second is
    deleted first. *)
Lemma key_order_deletes_exec_first :
  deleted (destroy_module key_order
             (lookups default_mode ["exec-command"; "exec"]%string))
  = [1; 0].
Proof. reflexivity. Qed.

(** X22. Whatever names were looked up, at most two functions were ever
    made; and in whatever order the destructor walks the entries of the
    map, each once, it deletes each of these functions exactly once, in
    that order, leaves no function alive and empties the map. *)
Theorem destructor_deletes_each_function_once
  (iteration : list (string * pointer) -> list (string * pointer))
  (names : list string) :
  (forall m, Permutation (iteration m) m) ->
  let st := lookups default_mode names in
  let after := destroy_module iteration st in
  theFunctions after = [] /\
  heap after = [] /\
  deleted after = held_pointers (iteration (theFunctions st)) /\
  Permutation (deleted after) (seq 0 (next_address st)) /\
  NoDup (deleted after) /\
  next_address st <= 2.
Proof.
  intros Hwalk. cbv zeta. unfold destroy_module.
  pose proof (registry_invariant_lookups default_mode names)
    as (I1 & I2 & I3 & I4 & I5 & I6).
  set (st := lookups default_mode names) in *.
  destruct (delete_all (iteration (theFunctions st)) st) as (Hd & Hh & Hn).
  cbn [with_functions theFunctions heap deleted].
  assert (Hperm : Permutation (held_pointers (iteration (theFunctions st)))
                    (seq 0 (next_address st))).
  { rewrite <- I3, <- I2. apply held_pointers_Permutation, Hwalk. }
  rewrite Hd, I6. cbn [app].
  split; [reflexivity|]. split; [|split; [reflexivity|split; [exact Hperm|split]]].
  - destruct (fold_left _ _ st) as [m' h' n' d'] eqn:E. cbn in *.
    destruct h' as [|o h']; [reflexivity|]. exfalso.
    destruct (proj1 (Hh o) (or_introl eq_refl)) as [Hin Hnot].
    apply Hnot. apply (Permutation_in _ (Permutation_sym Hperm)).
    rewrite <- I3. now apply in_map.
  - apply (Permutation_NoDup (Permutation_sym Hperm)), seq_NoDup.
  - assert (Hlen : next_address st = List.length (function_names (theFunctions st))).
    { rewrite function_names_length, I2, I3. now rewrite length_seq. }
    rewrite Hlen.
    apply (NoDup_incl_length (l' := ["exec"; "exec-command"]%string)).
    + now apply function_names_NoDup.
    + intros k Hk. destruct (function_names_entries _ k Hk) as [a Ha].
      pose proof (I1 k (Some a) (map_find_of_entry _ k _ I4 Ha)) as H.
      cbn. destruct H as [[-> _] | [-> _]]; auto.
Qed.

End RegistryLifetime.

Lemma destructor_deletes_each_function_once_witness :
  let st := lookups false ["exec-command"; "exec"]%string in
  let after := destroy_module key_order st in
  theFunctions after = [] /\
  heap after = [] /\
  deleted after = [1; 0]%nat /\
  Permutation (deleted after) [0; 1]%nat /\
  NoDup (deleted after) /\
  (2 <= 2)%nat.
Proof.
  exact (destructor_deletes_each_function_once false key_order
           ["exec-command"; "exec"]%string key_order_Permutation).
Defined.

(** ** The two drains against a writing child, continued *)

Section DrainSafety.
Local Open Scope list_scope.
Local Open Scope nat_scope.

(** X23. The only way the POSIX drains and the child can block each other:
    the calling process is still in its first loop with nothing to read on
    [stdout], and the child, alive, is in a write to [stderr] whose pipe is
    full. *)
Theorem deadlock_shape (c : config) (prog : list (stream * bytes)) (n : nat)
  (s : sys) :
  0 < capacity c -> 0 < PATH_MAX c ->
  steps c n (start prog) s ->
  deadlocked c s ->
  pc s = ReadOut /\ in_stdout s = [] /\ alive s = true /\
  capacity c <= List.length (in_stderr s) /\
  exists b data rest, todo s = (Err, b :: data) :: rest.
Proof.
  intros Hcap Hmax Hsteps (Hnd & Hc & Hp).
  pose proof (invariant_steps c Hcap Hmax prog n s Hsteps)
    as (I1 & I2 & I3 & I4 & I5 & I6).
  unfold parent_step in Hp. destruct (pc s) eqn:Hpc.
  - destruct (in_stdout s) as [|x out] eqn:Ho;
      [|destruct (alive s); destruct (Nat.ltb 0 _); discriminate Hp].
    destruct (alive s) eqn:Ha; [|destruct (Nat.ltb 0 _); discriminate Hp].
    unfold child_step in Hc. rewrite Ha in Hc.
    destruct (todo s) as [|[p data] rest] eqn:Ht; [discriminate Hc|].
    destruct data as [|b data]; [discriminate Hc|].
    unfold reader_open in Hc. rewrite Hpc in Hc.
    replace (negb match p with Out => true | Err => true end) with false in Hc
      by (destruct p; reflexivity).
    destruct (Nat.eqb _ 0) eqn:Hroom; [|discriminate Hc].
    apply Nat.eqb_eq in Hroom.
    destruct p; cbn [in_pipe] in Hroom.
    + rewrite Ho in Hroom. cbn in Hroom. lia.
    + repeat split; auto; [lia | eauto].
  - destruct (I3 ltac:(discriminate)) as [Ha He]. rewrite Ha in Hp.
    destruct (in_stderr s); destruct (Nat.ltb 0 _); discriminate Hp.
  - destruct (I3 ltac:(discriminate)) as [Ha He]. rewrite Ha in Hp.
    discriminate Hp.
  - now contradiction Hnd.
Qed.

Lemma deadlock_shape_witness :
  let c := {| capacity := 2; PATH_MAX := 2 |} in
  let s := {| todo := [(Err, [Byte.x21])]; alive := true; in_stdout := [];
              in_stderr := [Byte.x6e; Byte.x6f]; pc := ReadOut;
              lStdout := []; lStderr := [] |} in
  pc s = ReadOut /\ in_stdout s = [] /\ alive s = true /\
  capacity c <= List.length (in_stderr s) /\
  exists b data rest, todo s = (Err, b :: data) :: rest.
Proof.
  intros c s.
  apply (deadlock_shape c [(Err, [Byte.x6e; Byte.x6f; Byte.x21])] 1 s).
  - cbn. lia.
  - cbn. lia.
  - apply (run_schedule_steps c [true]). reflexivity.
  - unfold deadlocked. split; [discriminate | split; reflexivity].
Defined.

(** X24. At every moment of every run, deadlocked or not, what has been
    captured of each stream is a beginning of what the child writes to it:
    the drains lose, repeat and reorder nothing. *)
Theorem captured_is_a_prefix (c : config) (prog : list (stream * bytes))
  (n : nat) (s : sys) :
  0 < capacity c -> 0 < PATH_MAX c ->
  steps c n (start prog) s ->
  (exists rest, written Out prog = lStdout s ++ rest) /\
  (exists rest, written Err prog = lStderr s ++ rest).
Proof.
  intros Hcap Hmax Hsteps.
  pose proof (invariant_steps c Hcap Hmax prog n s Hsteps) as (I1 & I2 & _).
  split; eexists; symmetry; eassumption.
Qed.

Lemma captured_is_a_prefix_witness :
  let c := {| capacity := 4; PATH_MAX := 3 |} in
  let prog := [(Out, [Byte.x68; Byte.x65; Byte.x6c; Byte.x6c; Byte.x6f])] in
  let s := {| todo := [(Out, [Byte.x6f])]; alive := true;
              in_stdout := [Byte.x6c]; in_stderr := []; pc := ReadOut;
              lStdout := [Byte.x68; Byte.x65; Byte.x6c]; lStderr := [] |} in
  (exists rest, written Out prog = lStdout s ++ rest) /\
  (exists rest, written Err prog = lStderr s ++ rest).
Proof.
  intros c prog s.
  apply (captured_is_a_prefix c prog 2 s).
  - cbn. lia.
  - cbn. lia.
  - apply (run_schedule_steps c [true; false]). reflexivity.
Defined.

End DrainSafety.

(** ** The WIN32 wait and reads against a writing child *)

Import WaitThenRead.

Section WaitThenReadFacts.
Local Open Scope list_scope.
Local Open Scope nat_scope.

Variable nSize : nat.
Variable prog : list (stream * bytes).

Lemma drop_CR_app (a b : bytes) : drop_CR (a ++ b) = drop_CR a ++ drop_CR b.
Proof. apply filter_app. Qed.

Lemma drop_CR_written (a b d w : bytes) (n : nat) :
  a ++ drop_CR (b ++ firstn n d) ++ drop_CR (skipn n d ++ w)
  = a ++ drop_CR b ++ drop_CR (d ++ w).
Proof.
  f_equal. rewrite <- !drop_CR_app. f_equal.
  rewrite <- app_assoc. f_equal. now rewrite app_assoc, firstn_skipn.
Qed.

Lemma drop_CR_read (a q w : bytes) (n : nat) :
  (a ++ drop_CR (firstn n q)) ++ drop_CR (skipn n q) ++ w
  = a ++ drop_CR q ++ w.
Proof.
  rewrite <- app_assoc. f_equal. rewrite app_assoc. f_equal.
  now rewrite <- drop_CR_app, firstn_skipn.
Qed.

Lemma win_step_decreases (s s' : sys) :
  win_step nSize s s' -> win_moves_left s' < win_moves_left s.
Proof.
  intro Hstep. inversion Hstep as [s0 s1 H | s0 s1 H]; subst; clear Hstep.
  - unfold win_child_step in H.
    destruct (alive s) eqn:Ha; [|discriminate H].
    destruct (todo s) as [|[p data] rest] eqn:Ht.
    + injection H as <-. unfold win_moves_left. cbn. rewrite Ha, Ht. cbn. lia.
    + destruct data as [|b data].
      * injection H as <-. unfold win_moves_left. cbn. rewrite Ha, Ht. cbn. lia.
      * destruct (Nat.eqb _ 0) eqn:Hroom; [discriminate H|].
        apply Nat.eqb_neq in Hroom.
        injection H as <-. unfold win_moves_left.
        cbn [todo alive in_stdout in_stderr pc push set_child todo_weight].
        rewrite Ha, Ht. cbn [todo_weight].
        set (n := Nat.min _ _) in *.
        assert (Hn : 1 <= n <= List.length (b :: data))
          by (subst n; cbn [List.length]; lia).
        rewrite length_skipn.
        destruct p; rewrite length_app, length_firstn; lia.
  - unfold win_parent_step in H. destruct (pc s) eqn:Hpc.
    + destruct (in_stdout s) as [|x out] eqn:Ho.
      * destruct (alive s); [discriminate H|]. injection H as <-.
        unfold win_moves_left. cbn. rewrite Hpc, Ho. cbn. lia.
      * set (n := Nat.min lBuffer_size _) in H.
        assert (Hn : 1 <= n <= List.length (x :: out))
          by (subst n; unfold lBuffer_size; cbn [List.length]; lia).
        clearbody n. injection H as <-. unfold win_moves_left.
        cbn [todo alive in_stdout in_stderr pc set_parent].
        rewrite Hpc, Ho, length_skipn. cbn [win_pc_weight]. lia.
    + destruct (in_stderr s) as [|x err] eqn:Ho.
      * destruct (alive s); [discriminate H|]. injection H as <-.
        unfold win_moves_left. cbn. rewrite Hpc, Ho. cbn. lia.
      * set (n := Nat.min lBuffer_size _) in H.
        assert (Hn : 1 <= n <= List.length (x :: err))
          by (subst n; unfold lBuffer_size; cbn [List.length]; lia).
        clearbody n. injection H as <-. unfold win_moves_left.
        cbn [todo alive in_stdout in_stderr pc set_parent].
        rewrite Hpc, Ho, length_skipn. cbn [win_pc_weight]. lia.
    + destruct (alive s); [discriminate H|]. injection H as <-.
      unfold win_moves_left. cbn. rewrite Hpc. cbn. lia.
    + discriminate H.
Qed.

Lemma win_steps_bounded (n : nat) (s s' : sys) :
  win_steps nSize n s s' -> n + win_moves_left s' <= win_moves_left s.
Proof.
  intro H. induction H as [s | n s s' s'' _ IH Hstep]; [lia|].
  apply win_step_decreases in Hstep. lia.
Qed.

Lemma win_invariant_start : win_invariant nSize prog (win_start prog).
Proof.
  unfold win_invariant, win_start. cbn.
  repeat split; auto; try lia; try congruence;
    try (intros [E | E]; discriminate E).
Qed.

Lemma win_invariant_child (s s' : sys) :
  win_invariant nSize prog s -> win_child_step nSize s = Some s' ->
  win_invariant nSize prog s'.
Proof.
  intros (J1 & J2 & J3 & J4 & J5 & J6 & J7 & J8 & J9) H.
  unfold win_child_step in H.
  destruct (alive s) eqn:Ha; [|discriminate H].
  assert (Hpc : pc s = Wait).
  { destruct (pc s) eqn:E; [| |reflexivity|];
      (assert (Hn : pc s <> Wait) by congruence;
       rewrite E in Hn; specialize (J7 Hn); discriminate). }
  destruct (J3 Hpc) as [R1 R2].
  destruct (todo s) as [|[p data] rest] eqn:Ht.
  - injection H as <-. unfold win_invariant. cbn. rewrite Hpc.
    cbn in R1, R2. rewrite app_nil_r in R1, R2.
    repeat split; auto; try congruence;
      try (intros [E | E]; discriminate E).
    + now rewrite app_nil_r.
    + now rewrite app_nil_r.
  - destruct data as [|b data].
    + injection H as <-. unfold win_invariant. cbn. rewrite Hpc.
      rewrite written_cons in J1, J2, R1, R2.
      repeat split; auto; try congruence;
        try (intros [E | E]; discriminate E).
      * destruct p; exact J1.
      * destruct p; exact J2.
      * destruct p; exact R1.
      * destruct p; exact R2.
    + destruct (Nat.eqb _ 0) eqn:Hroom; [discriminate H|].
      apply Nat.eqb_neq in Hroom.
      injection H as <-. unfold win_invariant.
      set (n := Nat.min _ _) in *.
      assert (Hn : n <= nSize - List.length (in_pipe p s)) by (subst n; lia).
      cbn [todo alive in_stdout in_stderr pc lStdout lStderr push set_child].
      rewrite Hpc. rewrite !written_cons. rewrite written_cons in J1, J2, R1, R2.
      repeat split; auto; try congruence;
        try (intros [E | E]; discriminate E).
      * destruct p; [|exact J1]. rewrite <- J1. apply drop_CR_written.
      * destruct p; [exact J2|]. rewrite <- J2. apply drop_CR_written.
      * destruct p; [|exact R1]. rewrite <- R1.
        apply (written_moved [] (in_stdout s) (b :: data) (written Out rest) n).
      * destruct p; [exact R2|]. rewrite <- R2.
        apply (written_moved [] (in_stderr s) (b :: data) (written Err rest) n).
      * destruct p; [|exact J4]. cbn [in_pipe] in Hn.
        rewrite length_app, length_firstn. lia.
      * destruct p; [exact J5|]. cbn [in_pipe] in Hn.
        rewrite length_app, length_firstn. lia.
Qed.

Lemma win_invariant_parent (s s' : sys) :
  win_invariant nSize prog s -> win_parent_step s = Some s' ->
  win_invariant nSize prog s'.
Proof.
  intros (J1 & J2 & J3 & J4 & J5 & J6 & J7 & J8 & J9) H.
  unfold win_parent_step in H. destruct (pc s) eqn:Hpc.
  - specialize (J7 ltac:(discriminate)).
    destruct (in_stdout s) as [|x out] eqn:Ho.
    + rewrite J7 in H. injection H as <-. unfold win_invariant. cbn.
      repeat split; auto; try congruence; try discriminate;
        try (now apply J6).
    + set (n := Nat.min lBuffer_size _) in H. clearbody n.
      injection H as <-. unfold win_invariant. cbn.
      repeat split; auto; try congruence; try discriminate;
        try (now apply J6);
        try (intros [E | E]; discriminate E).
      * rewrite <- J1. apply drop_CR_read.
      * rewrite length_skipn. lia.
  - specialize (J7 ltac:(discriminate)).
    pose proof (J8 (or_introl eq_refl)) as Hout.
    destruct (in_stderr s) as [|x err] eqn:Ho.
    + rewrite J7 in H. injection H as <-. unfold win_invariant. cbn.
      repeat split; auto; try congruence; try discriminate;
        try (now apply J6).
    + set (n := Nat.min lBuffer_size _) in H. clearbody n.
      injection H as <-. unfold win_invariant. cbn.
      repeat split; auto; try congruence; try discriminate;
        try (now apply J6).
      * rewrite <- J2. apply drop_CR_read.
      * rewrite length_skipn. lia.
  - destruct (alive s) eqn:Ha; [discriminate H|]. injection H as <-.
    unfold win_invariant. cbn.
    repeat split; auto; try congruence; try discriminate;
        try (now apply J6);
      try (intros [E | E]; discriminate E).
  - discriminate H.
Qed.

Lemma win_invariant_steps (n : nat) (s : sys) :
  win_steps nSize n (win_start prog) s -> win_invariant nSize prog s.
Proof.
  intro H. remember (win_start prog) as s0 eqn:E.
  induction H as [s | n s s' s'' _ IH Hstep].
  - subst s. apply win_invariant_start.
  - specialize (IH E). inversion Hstep; subst.
    + now apply (win_invariant_child s').
    + now apply (win_invariant_parent s').
Qed.

Lemma win_run_schedule_steps (schedule : list bool) (s s' : sys) :
  win_run_schedule nSize schedule s = Some s' ->
  win_steps nSize (List.length schedule) s s'.
Proof.
  assert (Hfront : forall n a b d,
            win_step nSize a b -> win_steps nSize n b d ->
            win_steps nSize (S n) a d).
  { intros n a b d H1 H2. induction H2 as [t | n t t' t'' _ IH Hstep].
    - exact (win_steps_S nSize 0 a a t (win_steps_O nSize a) H1).
    - exact (win_steps_S nSize (S n) a t' t'' (IH H1) Hstep). }
  revert s. induction schedule as [|who rest IH]; intros s H; cbn in H.
  - injection H as <-. constructor.
  - destruct who.
    + destruct (win_child_step nSize s) as [t|] eqn:E; [|discriminate H].
      apply (Hfront _ s t s'); [now apply win_step_child | now apply IH].
    + destruct (win_parent_step s) as [t|] eqn:E; [|discriminate H].
      apply (Hfront _ s t s'); [now apply win_step_parent | now apply IH].
Qed.

End WaitThenReadFacts.

Section WaitThenReadTheorems.
Local Open Scope list_scope.
Local Open Scope nat_scope.

(** X25. [run_process] waits for the child before it reads: when the child
    writes more to one of its streams than the pipe holds, no run ever gets
    past the wait.  The child never ends, nothing is read, and the run
    stops after at most [win_moves_left] moves. *)
Theorem wait_before_read_overflow (nSize : nat) (prog : list (stream * bytes))
  (n : nat) (s : sys) :
  nSize < List.length (written Out prog) \/ nSize < List.length (written Err prog) ->
  win_steps nSize n (win_start prog) s ->
  pc s = Wait /\ alive s = true /\
  n + win_moves_left s <= win_moves_left (win_start prog).
Proof.
  intros Hover Hsteps.
  pose proof (win_invariant_steps nSize prog n s Hsteps)
    as (_ & _ & _ & _ & _ & J6 & J7 & _).
  assert (Ha : alive s = true).
  { destruct (alive s); [reflexivity|].
    destruct (J6 eq_refl) as (_ & H1 & H2). lia. }
  split; [|split; [exact Ha | now apply (win_steps_bounded nSize)]].
  destruct (pc s) eqn:E; try reflexivity;
    (assert (Hn : pc s <> Wait) by congruence;
     rewrite E in Hn; specialize (J7 Hn); congruence).
Qed.

Lemma wait_before_read_overflow_witness :
  let s := {| todo := [(Out, [Byte.x63])]; alive := true;
              in_stdout := [Byte.x61; Byte.x62]; in_stderr := [];
              pc := Wait; lStdout := []; lStderr := [] |} in
  win_run_schedule 2 [true] (win_start [(Out, [Byte.x61; Byte.x62; Byte.x63])])
  = Some s /\
  win_deadlocked 2 s /\
  pc s = Wait /\ alive s = true.
Proof.
  intro s.
  assert (Hrun : win_run_schedule 2 [true]
                   (win_start [(Out, [Byte.x61; Byte.x62; Byte.x63])]) = Some s)
    by reflexivity.
  split; [exact Hrun|].
  split; [unfold win_deadlocked; split; [discriminate | split; reflexivity]|].
  destruct (wait_before_read_overflow 2 [(Out, [Byte.x61; Byte.x62; Byte.x63])] 1 s
              ltac:(left; cbn; lia)
              (win_run_schedule_steps 2 [true] _ _ Hrun)) as (H1 & H2 & _).
  split; assumption.
Defined.

(** X26. When all that the child writes to each stream fits in the pipe,
    no schedule of [run_process] and the child deadlocks, every run is at
    most [win_moves_left] moves long, and once both reads are over each
    target stream is what the child wrote to that stream with the carriage
    returns removed. *)
Theorem wait_before_read_completes (nSize : nat) (prog : list (stream * bytes))
  (n : nat) (s : sys) :
  List.length (written Out prog) <= nSize ->
  List.length (written Err prog) <= nSize ->
  win_steps nSize n (win_start prog) s ->
  ~ win_deadlocked nSize s /\
  n + win_moves_left s <= win_moves_left (win_start prog) /\
  (pc s = Done ->
   lStdout s = drop_CR (written Out prog) /\
   lStderr s = drop_CR (written Err prog)).
Proof.
  intros Hout Herr Hsteps.
  pose proof (win_invariant_steps nSize prog n s Hsteps)
    as (J1 & J2 & J3 & J4 & J5 & J6 & J7 & J8 & J9).
  split; [|split; [now apply (win_steps_bounded nSize)|]].
  - intros (Hnd & Hc & Hp). unfold win_parent_step in Hp.
    destruct (pc s) eqn:Hpc.
    + specialize (J7 ltac:(discriminate)). rewrite J7 in Hp.
      destruct (in_stdout s); discriminate Hp.
    + specialize (J7 ltac:(discriminate)). rewrite J7 in Hp.
      destruct (in_stderr s); discriminate Hp.
    + destruct (alive s) eqn:Ha; [|discriminate Hp].
      destruct (J3 eq_refl) as [R1 R2].
      unfold win_child_step in Hc. rewrite Ha in Hc.
      destruct (todo s) as [|[p data] rest] eqn:Ht; [discriminate Hc|].
      destruct data as [|b data]; [discriminate Hc|].
      destruct (Nat.eqb _ 0) eqn:Hroom; [|discriminate Hc].
      apply Nat.eqb_eq in Hroom. rewrite written_cons in R1, R2.
      destruct p; cbn [in_pipe] in Hroom.
      * apply (f_equal (@List.length _)) in R1.
        rewrite !length_app in R1. cbn [List.length] in R1. lia.
      * apply (f_equal (@List.length _)) in R2.
        rewrite !length_app in R2. cbn [List.length] in R2. lia.
    + now apply Hnd.
  - intro Hd. rewrite Hd in *.
    destruct (J6 (J7 ltac:(discriminate))) as (Ht & _).
    rewrite Ht in J1, J2.
    rewrite (J8 (or_intror eq_refl)) in J1. rewrite (J9 eq_refl) in J2.
    cbn in J1, J2. rewrite app_nil_r in J1, J2. auto.
Qed.

Lemma wait_before_read_completes_witness :
  let s := {| todo := []; alive := false; in_stdout := []; in_stderr := [];
              pc := Done; lStdout := [Byte.x6f; Byte.x6b; Byte.x0a];
              lStderr := [] |} in
  win_run_schedule 8 [true; true; true; false; false; false; false]
    (win_start [(Out, [Byte.x6f; Byte.x6b; Byte.x0d; Byte.x0a])])
  = Some s /\
  ~ win_deadlocked 8 s /\
  lStdout s = drop_CR [Byte.x6f; Byte.x6b; Byte.x0d; Byte.x0a].
Proof.
  intro s.
  assert (Hrun : win_run_schedule 8 [true; true; true; false; false; false; false]
                   (win_start [(Out, [Byte.x6f; Byte.x6b; Byte.x0d; Byte.x0a])])
                 = Some s) by (vm_compute; reflexivity).
  split; [exact Hrun|].
  destruct (wait_before_read_completes 8
              [(Out, [Byte.x6f; Byte.x6b; Byte.x0d; Byte.x0a])] 7 s
              ltac:(cbn; lia) ltac:(cbn; lia)
              (win_run_schedule_steps 8 _ _ _ Hrun)) as (H1 & _ & H3).
  split; [exact H1|]. exact (proj1 (H3 eq_refl)).
Defined.

End WaitThenReadTheorems.
